(** * winlock: a directory lock built on exclusive file creation

    Shallow embedding of [winlock/lock.py] (class [DirLock]) together with
    the small part of the operating system it talks to: exclusive create,
    close, unlink, the clock and [time.sleep].

    Layout of the development:
    - [Os]      : errno values, the world (files, descriptors, clock,
                  other actors) and the system calls used by the module;
    - [OsPath]  : [os.path.join] / [os.path.split], with the POSIX flavour;
    - [Lock]    : the [DirLock] object and its methods, one definition per
                  method of the class;
    - [Process] : a heap of [DirLock] objects addressed by reference, the
                  [with] statement, finalisation, and sequences of calls;
    - [Scenario]: concrete objects, worlds and client code, among them
                  [main] of [tests/test.py];
    - the properties of the specification, one theorem each.

    Time is counted in seconds, as rational numbers.  The loop of
    [acquire] has no bound of its own, so its embedding takes the number
    of iterations it may use ([fuel]); statements that a call ends say
    how much is enough. *)

From Stdlib Require Import QArith Qround Lqa Ascii.
From stdpp Require Import gmap strings list fin_maps.

Local Open Scope string_scope.

(* ===================================================================== *)
(** ** The operating system as seen by the module *)
(* ===================================================================== *)

Module Os.

(** The [errno] codes that matter to the module.  [EEXIST] is the only one
    the code inspects; the others stand for "any other filesystem reason". *)
Inductive errno : Set :=
  | EEXIST | ENOENT | EACCES | EPERM | ENOSPC | EIO | EBADF.

#[global] Instance errno_eq_dec : EqDecision errno.
Proof. solve_decision. Defined.

(** What another actor (another process, or another thread of this one) may
    do to the shared filesystem and to the clock while we are asleep. *)
Inductive env_action : Type :=
  | EnvCreate (path : string)              (* somebody creates the file   *)
  | EnvRemove (path : string)              (* somebody removes the file   *)
  | EnvFault (path : string) (e : option errno) (* permissions change     *)
  | EnvClock (dt : Q).                     (* the clock moves on its own  *)

(** The system calls the module issues, in the order it issues them. *)
Inductive event : Type :=
  | EvOpen (path : string)
  | EvClose (fd : nat)
  | EvUnlink (path : string)
  | EvSleep (secs : Q).

(** The world.  [files] are the paths that exist; [fds] is this process's
    table of open descriptors; [fault] gives, for a path, the error with
    which creating or removing that directory entry fails (missing parent
    directory, no write permission, ...); [now] is what [time.time()]
    returns; [env] is the script of the other actors, one action consumed
    per [time.sleep]; [log] records our own system calls, newest first.

    The clock is moved by [time.sleep] and by the [EnvClock] actions of
    the script only: time that passes while the process computes or sits
    in another system call is accounted for by [EnvClock] actions, and a
    world with an empty script is one where such time is negligible. *)
Record World : Type := mkWorld {
  files : gset string;
  fds   : gmap nat string;
  fault : gmap string errno;
  now   : Q;
  env   : list env_action;
  log   : list event
}.

Definition record (ev : event) (w : World) : World :=
  mkWorld (files w) (fds w) (fault w) (now w) (env w) (ev :: log w).

Definition apply_env (a : env_action) (w : World) : World :=
  match a with
  | EnvCreate p => mkWorld ({[p]} ∪ files w) (fds w) (fault w) (now w) (env w) (log w)
  | EnvRemove p => mkWorld (files w ∖ {[p]}) (fds w) (fault w) (now w) (env w) (log w)
  | EnvFault p (Some e) =>
      mkWorld (files w) (fds w) (<[p := e]> (fault w)) (now w) (env w) (log w)
  | EnvFault p None =>
      mkWorld (files w) (fds w) (delete p (fault w)) (now w) (env w) (log w)
  | EnvClock dt => mkWorld (files w) (fds w) (fault w) (now w + dt)%Q (env w) (log w)
  end.

(** [os.open(path, O_CREAT|O_EXCL|O_RDWR)]: fails with [EEXIST] if the
    file is there, whatever the state of its directory; otherwise fails
    with the path's fault if it has one; and otherwise creates the file
    and returns a descriptor that was not open before. *)
Definition os_open (path : string) (w : World) : (errno + nat) * World :=
  let w := record (EvOpen path) w in
  if decide (path ∈ files w) then (inl EEXIST, w)
  else
    match fault w !! path with
    | Some e => (inl e, w)
    | None =>
        let fd := fresh (dom (fds w)) in
        (inr fd,
         mkWorld ({[path]} ∪ files w) (<[fd := path]> (fds w))
                 (fault w) (now w) (env w) (log w))
    end.

(** [os.close(fd)]: [EBADF] unless [fd] is open. *)
Definition os_close (fd : nat) (w : World) : (errno + unit) * World :=
  let w := record (EvClose fd) w in
  match fds w !! fd with
  | None => (inl EBADF, w)
  | Some _ =>
      (inr tt, mkWorld (files w) (delete fd (fds w)) (fault w) (now w) (env w) (log w))
  end.

(** [os.unlink(path)]: the path's fault if it has one, [ENOENT] if the file
    is not there, and otherwise the file is gone. *)
Definition os_unlink (path : string) (w : World) : (errno + unit) * World :=
  let w := record (EvUnlink path) w in
  match fault w !! path with
  | Some e => (inl e, w)
  | None =>
      if decide (path ∈ files w)
      then (inr tt, mkWorld (files w ∖ {[path]}) (fds w) (fault w) (now w) (env w) (log w))
      else (inl ENOENT, w)
  end.

(** [time.time()]. *)
Definition time_time (w : World) : Q := now w.

(** [time.sleep(secs)] for [secs >= 0] (the caller checks the sign): the
    clock advances by [secs] and the next action of the other actors, if
    any, takes place. *)
Definition sleep_for (secs : Q) (w : World) : World :=
  let w := mkWorld (files w) (fds w) (fault w) (now w + secs)%Q (env w)
                   (EvSleep secs :: log w) in
  match env w with
  | [] => w
  | a :: rest =>
      apply_env a (mkWorld (files w) (fds w) (fault w) (now w) rest (log w))
  end.

(** Number of [time.sleep] calls and of create attempts in a log. *)
Definition is_sleep (ev : event) : bool :=
  match ev with EvSleep _ => true | _ => false end.
Definition is_open (ev : event) : bool :=
  match ev with EvOpen _ => true | _ => false end.
Definition sleeps (w : World) : nat := length (List.filter is_sleep (log w)).
Definition opens (w : World) : nat := length (List.filter is_open (log w)).

End Os.

Import Os.

(* ===================================================================== *)
(** ** [os.path] *)
(* ===================================================================== *)

(** [os.path] is a different module on each platform; the class only needs
    [join] and [split] from it. *)
Class OsPath : Type := {
  path_join  : string -> string -> string;
  path_split : string -> string * string
}.

Module PosixPath.

Definition sep : Ascii.ascii := "/"%char.

Definition is_sep (c : Ascii.ascii) : bool := Ascii.eqb c sep.

(** [p[:i], p[i:]] with [i = p.rfind('/') + 1]. *)
Fixpoint cut_at_last_sep (p : string) : string * string :=
  match p with
  | EmptyString => (EmptyString, EmptyString)
  | String c r =>
      let '(h, t) := cut_at_last_sep r in
      match h with
      | EmptyString =>
          if is_sep c then (String c EmptyString, r) else (EmptyString, String c t)
      | _ => (String c h, t)
      end
  end.

Fixpoint has_sep (s : string) : bool :=
  match s with
  | EmptyString => false
  | String c r => is_sep c || has_sep r
  end.

Fixpoint all_sep (s : string) : bool :=
  match s with
  | EmptyString => true
  | String c r => is_sep c && all_sep r
  end.

(** [s.rstrip('/')]. *)
Fixpoint rstrip_sep (s : string) : string :=
  match s with
  | EmptyString => EmptyString
  | String c r =>
      match rstrip_sep r with
      | EmptyString => if is_sep c then EmptyString else String c EmptyString
      | r' => String c r'
      end
  end.

Fixpoint ends_with_sep (s : string) : bool :=
  match s with
  | EmptyString => false
  | String c EmptyString => is_sep c
  | String _ r => ends_with_sep r
  end.

Definition starts_with_sep (s : string) : bool :=
  match s with
  | String c _ => is_sep c
  | EmptyString => false
  end.

(** [posixpath.split]. *)
Definition split (p : string) : string * string :=
  let '(head, tail) := cut_at_last_sep p in
  let head :=
    match head with
    | EmptyString => head
    | _ => if all_sep head then head else rstrip_sep head
    end in
  (head, tail).

(** [posixpath.join] with two arguments. *)
Definition join (a b : string) : string :=
  if starts_with_sep b then b
  else match a with
       | EmptyString => a ++ b
       | _ => if ends_with_sep a then a ++ b else a ++ "/" ++ b
       end.

End PosixPath.

#[export] Instance posixpath : OsPath :=
  {| path_join := PosixPath.join; path_split := PosixPath.split |}.


(* ===================================================================== *)
(** ** The [DirLock] class *)
(* ===================================================================== *)

Module Lock.

(** Exceptions that can leave a method of the class, or the body of a
    [with] block.  [DirLockException] is the module's own; [OSError] keeps
    the [errno] of the failed system call; [ValueError] is what
    [time.sleep] raises on a negative argument; [AttributeError] is what
    reading [self.fd] raises before any assignment to it; [ReferenceError]
    ends a call through a reference that designates no object;
    [OtherError] stands for whatever else client code may raise. *)
Inductive exn : Type :=
  | DirLockException (msg : string)
  | OSError (e : errno)
  | ValueError (msg : string)
  | AttributeError (msg : string)
  | ReferenceError (msg : string)
  | OtherError (msg : string).

(** The attributes of an instance.  [fd] is absent until [acquire] first
    assigns it.  Durations are in seconds. *)
Record DirLock : Type := mkDirLock {
  is_locked : bool;
  lockfile  : string;
  directory : string;
  timeout   : Q;
  delay     : Q;
  fd        : option nat
}.

Definition set_is_locked (b : bool) (self : DirLock) : DirLock :=
  mkDirLock b (lockfile self) (directory self) (timeout self) (delay self) (fd self).

Definition set_fd (n : nat) (self : DirLock) : DirLock :=
  mkDirLock (is_locked self) (lockfile self) (directory self) (timeout self)
            (delay self) (Some n).

(** How a call ends: it returns, it raises, or (in this model only) the
    loop of [acquire] used up the iterations it was given. *)
Inductive outcome (A : Type) : Type :=
  | Return (a : A)
  | Raise (e : exn)
  | OutOfFuel.
Arguments Return {A} a.
Arguments Raise {A} e.
Arguments OutOfFuel {A}.

(** The values a method may hand back to the interpreter where the
    interpreter looks at them: [None], or a boolean. *)
Inductive pyval : Type :=
  | PyNone
  | PyBool (b : bool).

(** Truth value testing. *)
Definition truthy (v : pyval) : bool :=
  match v with
  | PyNone => false
  | PyBool b => b
  end.

(** A method body: it reads and updates [self] and the world. *)
Definition M (A : Type) : Type := DirLock -> World -> outcome A * DirLock * World.

Definition ret {A} (a : A) : M A := fun self w => (Return a, self, w).

Definition raise {A} (e : exn) : M A := fun self w => (Raise e, self, w).

Definition bind {A B} (m : M A) (k : A -> M B) : M B :=
  fun self w =>
    match m self w with
    | (Return a, self', w') => k a self' w'
    | (Raise e, self', w') => (Raise e, self', w')
    | (OutOfFuel, self', w') => (OutOfFuel, self', w')
    end.

Declare Scope py_scope.
Delimit Scope py_scope with py.
Notation "x <- m ;; k" := (bind m (fun x => k))
  (at level 100, m at next level, right associativity) : py_scope.
Notation "m ;; k" := (bind m (fun _ => k))
  (at level 100, right associativity) : py_scope.
Local Open Scope py_scope.

(** Reading and writing attributes of [self]. *)
Definition get {A} (field : DirLock -> A) : M A := fun self w => (Return (field self), self, w).
Definition update (f : DirLock -> DirLock) : M unit := fun self w => (Return tt, f self, w).

(** A system call; a failure surfaces as [OSError]. *)
Definition syscall {A} (call : World -> (errno + A) * World) : M A :=
  fun self w =>
    match call w with
    | (inr a, w') => (Return a, self, w')
    | (inl e, w') => (Raise (OSError e), self, w')
    end.

(** [try: body  except OSError as err: handler(err)]. *)
Definition try_except_OSError {A} (body : M A) (handler : errno -> M A) : M A :=
  fun self w =>
    match body self w with
    | (Raise (OSError err), self', w') => handler err self' w'
    | r => r
    end.

Definition time_time : M Q := fun self w => (Return (Os.time_time w), self, w).

(** [time.sleep(secs)], which refuses a negative duration. *)
Definition time_sleep (secs : Q) : M unit :=
  fun self w =>
    if Qle_bool 0 secs then (Return tt, self, sleep_for secs w)
    else (Raise (ValueError "sleep length must be non-negative"), self, w).

(** [DirLock.__init__(self, directory, timeout=10, delay=.05)]. *)
Definition default_timeout : Q := 10.
Definition default_delay : Q := 5 # 100.

Definition __init__ `{OsPath} (directory : string) (timeout delay : Q) : DirLock :=
  {| is_locked := false;
     lockfile := path_join directory ((path_split directory).2 ++ ".lock");
     directory := directory;
     timeout := timeout;
     delay := delay;
     fd := None |}.

(** The [while True] loop of [acquire], with at most [fuel] iterations;
    [start] is the time recorded before the loop. *)
Fixpoint acquire_loop (fuel : nat) (start : Q) : M unit :=
  match fuel with
  | O => fun self w => (OutOfFuel, self, w)
  | S fuel' =>
      try_except_OSError
        (path <- get lockfile ;;
         n <- syscall (os_open path) ;;
         update (set_fd n) ;;
         update (set_is_locked true))             (* break *)
        (fun err =>
           if negb (bool_decide (err = EEXIST)) then raise (OSError err)
           else
             tmo <- get timeout ;;
             if Qeq_bool tmo 0 then
               dir <- get directory ;;
               raise (DirLockException ("Could not acquire lock on " ++ dir))
             else
               t <- time_time ;;
               if Qle_bool tmo (t - start) then
                 raise (DirLockException "Timeout occurred.")
               else
                 d <- get delay ;;
                 time_sleep d ;;
                 acquire_loop fuel' start)
  end.

(** [DirLock.acquire]. *)
Definition acquire (fuel : nat) : M unit :=
  start <- time_time ;;
  acquire_loop fuel start.

(** [DirLock.release]. *)
Definition release : M unit :=
  locked <- get is_locked ;;
  if locked : bool then
    ofd <- get fd ;;
    match ofd with
    | None => raise (AttributeError "'DirLock' object has no attribute 'fd'")
    | Some n =>
        syscall (os_close n) ;;
        path <- get lockfile ;;
        syscall (os_unlink path) ;;
        update (set_is_locked false)
    end
  else ret tt.

(** [DirLock.__enter__]; [this] is the reference the method was called on,
    and is what [return self] hands back. *)
Definition __enter__ {R : Type} (this : R) (fuel : nat) : M R :=
  locked <- get is_locked ;;
  (if negb locked then acquire fuel else ret tt) ;;
  ret this.

(** [DirLock.__exit__(self, type, value, traceback)]; the three arguments
    are [None] or describe the exception that left the block.  The method
    has no [return], so its value is [None]. *)
Definition __exit__ (exc : option exn) : M pyval :=
  locked <- get is_locked ;;
  (if locked : bool then release else ret tt) ;;
  ret PyNone.

(** [DirLock.__del__]. *)
Definition __del__ : M unit := release.

End Lock.

Import Lock.

(* ===================================================================== *)
(** ** A process holding several [DirLock] objects *)
(* ===================================================================== *)

Module Process.

(** Objects live in a heap and are passed around by reference, so that the
    value bound by [with ... as x] and the object whose [__exit__] runs are
    one and the same object. *)
Definition ref : Type := nat.

Record Proc : Type := mkProc {
  objs : list DirLock;
  os   : World
}.

Definition P (A : Type) : Type := Proc -> outcome A * Proc.

(** Method call [r.m(...)]: the method runs on the object [r] points to
    and its updates of [self] are written back to the heap. *)
Definition call {A} (r : ref) (m : M A) : P A :=
  fun p =>
    match objs p !! r with
    | Some self =>
        let '(o, self', w') := m self (os p) in
        (o, mkProc (<[r := self']> (objs p)) w')
    | None => (Raise (ReferenceError "no such object"), p)
    end.

(** [DirLock(directory, timeout, delay)]: a new object, nothing else. *)
Definition new `{OsPath} (directory : string) (timeout delay : Q) : P ref :=
  fun p =>
    (Return (length (objs p)),
     mkProc (objs p ++ [__init__ directory timeout delay]) (os p)).

(** [with mgr as value: body(value)], as the language defines it:
    [__enter__] runs first and its result is bound; if the body leaves
    normally [__exit__(None, None, None)] runs; if the body raises,
    [__exit__] gets the exception and the exception is raised again unless
    [__exit__] returned a true value; an exception raised by [__exit__]
    itself takes the place of whatever was in flight. *)
Definition with_stmt (mgr : ref) (fuel : nat) (body : ref -> P unit) : P unit :=
  fun p =>
    match call mgr (__enter__ mgr fuel) p with
    | (Return value, p1) =>
        match body value p1 with
        | (Return _, p2) =>
            match call mgr (__exit__ None) p2 with
            | (Return _, p3) => (Return tt, p3)
            | (Raise e', p3) => (Raise e', p3)
            | (OutOfFuel, p3) => (OutOfFuel, p3)
            end
        | (Raise e, p2) =>
            match call mgr (__exit__ (Some e)) p2 with
            | (Return v, p3) => if truthy v then (Return tt, p3) else (Raise e, p3)
            | (Raise e', p3) => (Raise e', p3)
            | (OutOfFuel, p3) => (OutOfFuel, p3)
            end
        | (OutOfFuel, p2) => (OutOfFuel, p2)
        end
    | (Raise e, p1) => (Raise e, p1)
    | (OutOfFuel, p1) => (OutOfFuel, p1)
    end.

(** Destruction of the object [r]: the interpreter calls [__del__] and
    discards whatever it raises (it only prints a warning). *)
Definition finalize (r : ref) : P unit :=
  fun p =>
    match call r __del__ p with
    | (Raise _, p') => (Return tt, p')
    | res => res
    end.

(** The operations a client performs on its locks. *)
Inductive op : Type :=
  | OpNew (directory : string) (timeout delay : Q)
  | OpAcquire (r : ref) (fuel : nat)
  | OpRelease (r : ref)
  | OpEnter (r : ref) (fuel : nat)
  | OpExit (r : ref) (exc : option exn).

Definition step `{OsPath} (o : op) (p : Proc) : Proc :=
  match o with
  | OpNew d t dl => (new d t dl p).2
  | OpAcquire r fuel => (call r (acquire fuel) p).2
  | OpRelease r => (call r release p).2
  | OpEnter r fuel => (call r (__enter__ r fuel) p).2
  | OpExit r exc => (call r (__exit__ exc) p).2
  end.

Definition run `{OsPath} (ops : list op) (p : Proc) : Proc :=
  fold_left (fun p o => step o p) ops p.

(** A process that has not created any lock object yet. *)
Definition start (w : World) : Proc := mkProc [] w.

End Process.

Import Process.

(* ===================================================================== *)
(** ** Predicates used in the statements *)
(* ===================================================================== *)

(** The invariant of the data model for one object: a locked object's file
    exists and its stored descriptor is open on that file. *)
Definition lock_inv (self : DirLock) (w : World) : Prop :=
  is_locked self = true ->
  lockfile self ∈ files w /\
  exists n, fd self = Some n /\ fds w !! n = Some (lockfile self).

Definition lock_inv_all (p : Proc) : Prop :=
  forall r self, objs p !! r = Some self -> lock_inv self (os p).

(** Other actors that only add contention: they may create files, time
    may pass and a fault may go away, but nobody removes a file, takes a
    permission away or sets the clock back. *)
Definition benign (a : env_action) : Prop :=
  match a with
  | EnvCreate _ | EnvFault _ None => True
  | EnvClock dt => (0 <= dt)%Q
  | EnvRemove _ | EnvFault _ (Some _) => False
  end.

(** [w'] comes after [w] in a run where the other actors are benign and
    we made no successful system call: no file and no usable path was
    lost, our descriptors are the same, and the clock did not go back. *)
Definition later (w w' : World) : Prop :=
  (files w ⊆ files w') /\
  fds w' = fds w /\
  (forall q, fault w !! q = None -> fault w' !! q = None) /\
  Forall benign (env w') /\
  (now w <= now w')%Q.

(** [k] retry delays. *)
Definition span (k : nat) (d : Q) : Q := (inject_Z (Z.of_nat k) * d)%Q.

(** The number of create attempts after which a contended [acquire] with a
    nonzero timeout and a positive delay has given up. *)
Definition max_attempts (self : DirLock) : nat :=
  S (Z.to_nat (Qceiling (timeout self / delay self))).

(** The world in which [acquire] makes its create attempt number [j]
    (counting from 0) when none of the earlier ones succeeded nor ended the
    call: each of them was logged and followed by a sleep of [delay]. *)
Fixpoint polled (j : nat) (self : DirLock) (w : World) : World :=
  match j with
  | O => w
  | S j' => polled j' self (sleep_for (delay self) (record (EvOpen (lockfile self)) w))
  end.

(** The system calls [acquire] may make on behalf of [self]. *)
Definition acquire_event (self : DirLock) (ev : event) : Prop :=
  ev = EvOpen (lockfile self) \/ ev = EvSleep (delay self).

(** The two ways [acquire] can end among benign actors: nothing of ours
    has changed, or the last create attempt, made in a later world [w1]
    where the file was absent, created the file and opened a descriptor
    that was free. *)
Definition acquired (self self' : DirLock) (w w' : World) : Prop :=
  exists n w1,
    later w w1 /\
    (lockfile self ∉ files w1) /\
    fault w1 !! lockfile self = None /\
    fds w1 !! n = None /\
    self' = set_is_locked true (set_fd n self) /\
    files w' = {[lockfile self]} ∪ files w1 /\
    fds w' = <[n := lockfile self]> (fds w1) /\
    fault w' = fault w1 /\
    env w' = env w1.

(** What holding the lock amounts to on the side of the system: the file
    is there, its path is usable, and the stored descriptor is open on it. *)
Definition held_ok (self : DirLock) (w : World) : Prop :=
  lockfile self ∈ files w /\
  fault w !! lockfile self = None /\
  exists n, fd self = Some n /\ fds w !! n = Some (lockfile self).

(** The invariant that sequences of operations maintain: the other actors
    are benign, every locked object holds its lock in the above sense, and
    no two locked objects have the same lock file. *)
Definition sound (p : Proc) : Prop :=
  Forall benign (env (os p)) /\
  (forall r self, objs p !! r = Some self -> is_locked self = true -> held_ok self (os p)) /\
  (forall r1 r2 s1 s2,
      r1 <> r2 -> objs p !! r1 = Some s1 -> objs p !! r2 = Some s2 ->
      is_locked s1 = true -> is_locked s2 = true -> lockfile s1 <> lockfile s2).

(** The two messages by which the module tells its failures apart. *)
Definition LockUnavailable (self : DirLock) : exn :=
  DirLockException ("Could not acquire lock on " ++ directory self).
Definition LockTimeout : exn := DirLockException "Timeout occurred.".

(* ===================================================================== *)
(** ** Concrete situations *)
(* ===================================================================== *)

Module Scenario.

Definition work_lock : string := "/tmp/work/work.lock".

(** [DirLock('/tmp/work')], and the same with other durations. *)
Definition work : DirLock := __init__ "/tmp/work" default_timeout default_delay.
Definition work_now : DirLock := __init__ "/tmp/work" 0 default_delay.
Definition work_brief : DirLock := __init__ "/tmp/work" 1 (1 # 2).

(** Nobody holds the lock and nobody else is around. *)
Definition quiet : World := mkWorld ∅ ∅ ∅ 0 [] [].

(** Somebody else holds the lock and keeps it. *)
Definition held : World := mkWorld {[work_lock]} ∅ ∅ 0 [] [].

(** Somebody else holds the lock and lets go during our second sleep. *)
Definition held_for_a_while : World :=
  mkWorld {[work_lock]} ∅ ∅ 0 [EnvClock 0; EnvRemove work_lock] [].

(** The directory to lock does not exist. *)
Definition no_directory : World := mkWorld ∅ ∅ {[work_lock := ENOENT]} 0 [] [].

(** Our lock object while it holds the lock through descriptor 0. *)
Definition work_held : DirLock := set_is_locked true (set_fd 0 work).

(** We hold the lock through descriptor 0. *)
Definition ours : World := mkWorld {[work_lock]} {[0 := work_lock]} ∅ 0 [] [].

(** We hold descriptor 0, but another actor has removed the lock file. *)
Definition orphaned : World := mkWorld ∅ {[0 := work_lock]} ∅ 0 [] [].

(** The same object with a short timeout. *)
Definition work_brief_held : DirLock := set_is_locked true (set_fd 0 work_brief).

(** A block during which another actor removes [path]. *)
Definition someone_removes (path : string) : ref -> P unit :=
  fun _ p => (Return tt, mkProc (objs p) (apply_env (EnvRemove path) (os p))).

(** A block that fails with [e]. *)
Definition failing_body (e : exn) : ref -> P unit :=
  fun _ p => (Raise e, p).

(** A block during which another actor removes [path] and which then
    fails with [e]. *)
Definition interfered_failing_body (path : string) (e : exn) : ref -> P unit :=
  fun _ p => (Raise e, mkProc (objs p) (apply_env (EnvRemove path) (os p))).

(** The block [os.unlink(lock.lockfile); raise e], where [lock] is the
    value the [with] statement bound. *)
Definition unlinks_and_fails (e : exn) : ref -> P unit :=
  fun lock p =>
    match objs p !! lock with
    | Some self => (Raise e, mkProc (objs p) (os_unlink (lockfile self) (os p)).2)
    | None => (Raise e, p)
    end.

(** A process with one fresh [DirLock('/tmp/work')], at reference 0. *)
Definition one_lock (w : World) : Proc :=
  (new "/tmp/work" default_timeout default_delay (start w)).2.

(** The block of [tests/test.py]: ten times, print a line and sleep for a
    second (printing leaves no trace in the world). *)
Fixpoint print_and_sleep (times : nat) : P unit :=
  fun p =>
    match times with
    | O => (Return tt, p)
    | S times' => print_and_sleep times' (mkProc (objs p) (sleep_for 1 (os p)))
    end.

(** [main()] of [tests/test.py], with [mydir] for [os.getcwd()]: lock the
    directory with a temporary [DirLock(mydir)] for the duration of the
    block; the temporary is destroyed afterwards. *)
Definition test_main (mydir : string) (fuel : nat) : P unit :=
  fun p =>
    match new mydir default_timeout default_delay p with
    | (Return r, p1) =>
        match with_stmt r fuel (fun _ => print_and_sleep 10) p1 with
        | (res, p2) => (res, (finalize r p2).2)
        end
    | (Raise e, p1) => (Raise e, p1)
    | (OutOfFuel, p1) => (OutOfFuel, p1)
    end.

End Scenario.

(** The fields fixed at construction. *)
Definition same_config (self self' : DirLock) : Prop :=
  lockfile self' = lockfile self /\ directory self' = directory self /\
  timeout self' = timeout self /\ delay self' = delay self.

(* ===================================================================== *)
(** ** Equations of the methods *)
(* ===================================================================== *)

Ltac unfold_py :=
  unfold acquire, release, __enter__, __exit__, __del__, bind, get, update,
    syscall, ret, raise, try_except_OSError, Lock.time_time, time_sleep,
    LockUnavailable, LockTimeout in *.

(** One iteration of the loop of [acquire], read off the method body. *)
Lemma acquire_loop_S (fuel : nat) (start : Q) (self : DirLock) (w : World) :
  acquire_loop (S fuel) start self w =
  match os_open (lockfile self) w with
  | (inr n, w1) => (Return tt, set_is_locked true (set_fd n self), w1)
  | (inl err, w1) =>
      if bool_decide (err = EEXIST) then
        if Qeq_bool (timeout self) 0 then (Raise (LockUnavailable self), self, w1)
        else if Qle_bool (timeout self) (now w1 - start) then (Raise LockTimeout, self, w1)
        else if Qle_bool 0 (delay self)
             then acquire_loop fuel start self (sleep_for (delay self) w1)
             else (Raise (ValueError "sleep length must be non-negative"), self, w1)
      else (Raise (OSError err), self, w1)
  end.
Proof.
  cbn [acquire_loop]. unfold_py.
  destruct (os_open (lockfile self) w) as [[err | n] w1]; [| reflexivity].
  destruct (bool_decide (err = EEXIST)); cbn [negb]; [| reflexivity].
  destruct (Qeq_bool (timeout self) 0); [reflexivity |].
  unfold Os.time_time.
  destruct (Qle_bool (timeout self) (now w1 - start)); [reflexivity |].
  destruct (Qle_bool 0 (delay self)); reflexivity.
Qed.

Lemma acquire_eq (fuel : nat) (self : DirLock) (w : World) :
  acquire fuel self w = acquire_loop fuel (now w) self w.
Proof. reflexivity. Qed.

Lemma release_eq (self : DirLock) (w : World) :
  release self w =
  if is_locked self then
    match fd self with
    | None => (Raise (AttributeError "'DirLock' object has no attribute 'fd'"), self, w)
    | Some n =>
        match os_close n w with
        | (inl e, w1) => (Raise (OSError e), self, w1)
        | (inr _, w1) =>
            match os_unlink (lockfile self) w1 with
            | (inl e, w2) => (Raise (OSError e), self, w2)
            | (inr _, w2) => (Return tt, set_is_locked false self, w2)
            end
        end
    end
  else (Return tt, self, w).
Proof.
  unfold_py. destruct (is_locked self); [| reflexivity].
  destruct (fd self) as [n |]; [| reflexivity].
  destruct (os_close n w) as [[e | []] w1]; [reflexivity |].
  destruct (os_unlink (lockfile self) w1) as [[e | []] w2]; reflexivity.
Qed.

Lemma enter_eq {R : Type} (this : R) (fuel : nat) (self : DirLock) (w : World) :
  __enter__ this fuel self w =
  if is_locked self then (Return this, self, w)
  else match acquire fuel self w with
       | (Return _, self', w') => (Return this, self', w')
       | (Raise e, self', w') => (Raise e, self', w')
       | (OutOfFuel, self', w') => (OutOfFuel, self', w')
       end.
Proof.
  unfold __enter__, bind, get, ret. destruct (is_locked self); cbn [negb]; [reflexivity |].
  destruct (acquire fuel self w) as [[[[] | e |] self'] w']; reflexivity.
Qed.

Lemma exit_eq (exc : option exn) (self : DirLock) (w : World) :
  __exit__ exc self w =
  if is_locked self then
    match release self w with
    | (Return _, self', w') => (Return PyNone, self', w')
    | (Raise e, self', w') => (Raise e, self', w')
    | (OutOfFuel, self', w') => (OutOfFuel, self', w')
    end
  else (Return PyNone, self, w).
Proof.
  unfold __exit__, bind, get, ret. destruct (is_locked self); [| reflexivity].
  destruct (release self w) as [[[[] | e |] self'] w']; reflexivity.
Qed.

(** A create attempt leaves exactly one line in the log. *)
Lemma os_open_log (path : string) (w w1 : World) (r : errno + nat) :
  os_open path w = (r, w1) -> log w1 = EvOpen path :: log w.
Proof.
  unfold os_open. cbn.
  destruct (decide (path ∈ files w)); [intros [= <- <-]; reflexivity |].
  destruct (fault w !! path); intros [= <- <-]; reflexivity.
Qed.

(** A failed create attempt changes nothing but the log. *)
Lemma os_open_fail (path : string) (w w1 : World) (e : errno) :
  os_open path w = (inl e, w1) -> w1 = record (EvOpen path) w.
Proof.
  unfold os_open. cbn.
  destruct (decide (path ∈ files w)); [intros [= <- <-]; reflexivity |].
  destruct (fault w !! path); intros Heq; inversion Heq; reflexivity.
Qed.

Lemma log_one_open (path : string) (w w1 : World) :
  log w1 = EvOpen path :: log w ->
  sleeps w1 = sleeps w /\ opens w1 = S (opens w).
Proof. unfold sleeps, opens. intros ->. cbn. split; reflexivity. Qed.

(* ===================================================================== *)
(** ** Failures of [acquire] *)
(* ===================================================================== *)

(** C1.  Whenever a create attempt of [acquire] fails with an error other
    than "file exists", in the first iteration or in a later one and
    whatever the timeout is, the call ends there with the [OSError] of that
    very [errno]: the object is unchanged, and the attempt is the last
    system call made: no sleep follows it and no further attempt. *)
Theorem acquire_other_error_propagates :
  forall (fuel : nat) (start : Q) (self : DirLock) (w w1 : World) (e : errno),
    os_open (lockfile self) w = (inl e, w1) ->
    e <> EEXIST ->
    acquire_loop (S fuel) start self w = (Raise (OSError e), self, w1) /\
    acquire (S fuel) self w = (Raise (OSError e), self, w1) /\
    w1 = record (EvOpen (lockfile self)) w /\
    sleeps w1 = sleeps w /\ opens w1 = S (opens w).
Proof.
  intros fuel start self w w1 e Hopen Hne.
  assert (Hloop : forall s, acquire_loop (S fuel) s self w = (Raise (OSError e), self, w1)).
  { intros s. rewrite acquire_loop_S, Hopen.
    rewrite bool_decide_eq_false_2 by exact Hne. reflexivity. }
  split; [apply Hloop |]. split; [rewrite acquire_eq; apply Hloop |].
  split; [eapply os_open_fail; eassumption |].
  eapply log_one_open, os_open_log; eassumption.
Qed.

(** C2.  With a zero timeout, a first create attempt that finds the file
    already there ends the call with the "could not acquire" failure: one
    attempt, no sleep, nothing changed but the log. *)
Theorem acquire_zero_timeout_fails_at_once :
  forall (fuel : nat) (self : DirLock) (w w1 : World),
    (timeout self == 0)%Q ->
    os_open (lockfile self) w = (inl EEXIST, w1) ->
    acquire (S fuel) self w = (Raise (LockUnavailable self), self, w1) /\
    w1 = record (EvOpen (lockfile self)) w /\
    sleeps w1 = sleeps w /\ opens w1 = S (opens w).
Proof.
  intros fuel self w w1 Hz Hopen.
  split.
  - rewrite acquire_eq, acquire_loop_S, Hopen.
    rewrite bool_decide_eq_true_2 by reflexivity.
    apply Qeq_bool_iff in Hz. rewrite Hz. reflexivity.
  - split; [eapply os_open_fail; eassumption |].
    eapply log_one_open, os_open_log; eassumption.
Qed.


Lemma release_when_unlocked (self : DirLock) (w : World) :
  is_locked self = false -> release self w = (Return tt, self, w).
Proof. intros Hunl. rewrite release_eq, Hunl. reflexivity. Qed.

(** C8.  [release] on an object that is not locked returns normally and
    changes neither the object nor the world: no system call is made. *)
Theorem release_unlocked_is_noop :
  forall (self : DirLock) (w : World),
    is_locked self = false ->
    release self w = (Return tt, self, w).
Proof.
  intros self w Hunl. rewrite release_eq, Hunl. reflexivity.
Qed.

Lemma acquire_other_error_propagates_witness :
  acquire 1 Scenario.work Scenario.no_directory =
  (Raise (OSError ENOENT), Scenario.work,
   record (EvOpen Scenario.work_lock) Scenario.no_directory).
Proof.
  apply (acquire_other_error_propagates 0 0 Scenario.work Scenario.no_directory
           (record (EvOpen Scenario.work_lock) Scenario.no_directory) ENOENT).
  - vm_compute. reflexivity.
  - discriminate.
Defined.

Lemma acquire_zero_timeout_fails_at_once_witness :
  acquire 1 Scenario.work_now Scenario.held =
  (Raise (DirLockException "Could not acquire lock on /tmp/work"), Scenario.work_now,
   record (EvOpen Scenario.work_lock) Scenario.held).
Proof.
  apply (acquire_zero_timeout_fails_at_once 0 Scenario.work_now Scenario.held
           (record (EvOpen Scenario.work_lock) Scenario.held)).
  - vm_compute. reflexivity.
  - vm_compute. reflexivity.
Defined.


Lemma release_unlocked_is_noop_witness :
  release Scenario.work Scenario.held = (Return tt, Scenario.work, Scenario.held).
Proof.
  apply (release_unlocked_is_noop Scenario.work Scenario.held). reflexivity.
Defined.

(* ===================================================================== *)
(** ** The lock file path *)
(* ===================================================================== *)

Lemma same_config_refl (self : DirLock) : same_config self self.
Proof. repeat split. Qed.

Lemma same_config_trans (s1 s2 s3 : DirLock) :
  same_config s1 s2 -> same_config s2 s3 -> same_config s1 s3.
Proof. unfold same_config. intros (-> & -> & -> & ->) (-> & -> & -> & ->). repeat split. Qed.

#[local] Hint Resolve same_config_refl : core.

Lemma acquire_loop_config (fuel : nat) (start : Q) (self : DirLock) (w : World) :
  same_config self (acquire_loop fuel start self w).1.2.
Proof.
  revert w. induction fuel as [| fuel IH]; intros w; [cbn; auto |].
  rewrite acquire_loop_S.
  destruct (os_open (lockfile self) w) as [[err | n] w1]; [| repeat split].
  repeat case_match; cbn; auto.
Qed.

Lemma acquire_config (fuel : nat) (self : DirLock) (w : World) :
  same_config self (acquire fuel self w).1.2.
Proof. rewrite acquire_eq. apply acquire_loop_config. Qed.

Lemma release_config (self : DirLock) (w : World) :
  same_config self (release self w).1.2.
Proof. rewrite release_eq. repeat case_match; cbn; auto; repeat split. Qed.

Lemma enter_config {R : Type} (this : R) (fuel : nat) (self : DirLock) (w : World) :
  same_config self (__enter__ this fuel self w).1.2.
Proof.
  rewrite enter_eq. destruct (is_locked self); [cbn; auto |].
  pose proof (acquire_config fuel self w) as Hc.
  destruct (acquire fuel self w) as [[[[] | e |] self'] w']; exact Hc.
Qed.

Lemma exit_config (exc : option exn) (self : DirLock) (w : World) :
  same_config self (__exit__ exc self w).1.2.
Proof.
  rewrite exit_eq. destruct (is_locked self); [| cbn; auto].
  pose proof (release_config self w) as Hc.
  destruct (release self w) as [[[[] | e |] self'] w']; exact Hc.
Qed.

(** A method call leaves every object of the heap in place, and changes
    the callee only as the method does. *)
Lemma call_config {A} (m : M A) (r0 r : ref) (p : Proc) (self : DirLock) :
  (forall s w, same_config s (m s w).1.2) ->
  objs p !! r = Some self ->
  exists self', objs (call r0 m p).2 !! r = Some self' /\ same_config self self'.
Proof.
  intros Hm Hr. unfold call.
  destruct (objs p !! r0) as [s0 |] eqn:Hr0; [| cbn; eauto].
  specialize (Hm s0 (os p)).
  destruct (m s0 (os p)) as [[o s0'] w']. cbn in *.
  destruct (decide (r0 = r)) as [-> | Hne].
  - rewrite list_lookup_insert_eq by (eapply lookup_lt_Some; eassumption).
    rewrite Hr in Hr0. injection Hr0 as <-. eauto.
  - rewrite list_lookup_insert_ne by exact Hne. eauto.
Qed.

Section Paths.
Context {os_path : OsPath}.

Lemma step_config (o : op) (p : Proc) (r : ref) (self : DirLock) :
  objs p !! r = Some self ->
  exists self', objs (step o p) !! r = Some self' /\ same_config self self'.
Proof.
  intros Hr. destruct o as [d t dl | r0 fuel | r0 | r0 fuel | r0 exc]; cbn [step].
  - exists self. split; [| auto]. cbn. by apply lookup_app_l_Some.
  - apply call_config; [apply acquire_config | exact Hr].
  - apply call_config; [apply release_config | exact Hr].
  - apply call_config; [apply enter_config | exact Hr].
  - apply call_config; [apply exit_config | exact Hr].
Qed.

Lemma run_config (ops : list op) (p : Proc) (r : ref) (self : DirLock) :
  objs p !! r = Some self ->
  exists self', objs (run ops p) !! r = Some self' /\ same_config self self'.
Proof.
  revert p self. induction ops as [| o ops IH]; intros p self Hr; [cbn; eauto |].
  destruct (step_config o p r self Hr) as (s1 & Hr1 & Hc1).
  destruct (IH (step o p) s1 Hr1) as (s2 & Hr2 & Hc2).
  exists s2. split; [exact Hr2 | eapply same_config_trans; eassumption].
Qed.

(** Whatever [os.path] is on the platform: the constructor sets the lock
    file path to the directory joined with the last component of the
    directory followed by [.lock], and whatever is done later with this or
    any other lock object (acquire, release, entering and leaving scopes,
    creating more objects), the object still carries that same path and
    the same directory. *)
Theorem lockfile_fixed_at_construction :
  forall (d : string) (t dl : Q) (p : Proc) (ops : list op),
    lockfile (__init__ d t dl) = path_join d ((path_split d).2 ++ ".lock") /\
    exists self,
      objs (run ops (new d t dl p).2) !! length (objs p) = Some self /\
      lockfile self = path_join d ((path_split d).2 ++ ".lock") /\
      directory self = d.
Proof.
  intros d t dl p ops. split; [reflexivity |].
  destruct (run_config ops (new d t dl p).2 (length (objs p)) (__init__ d t dl))
    as (self & Hself & Hl & Hd & _).
  { cbn. apply list_lookup_middle. reflexivity. }
  exists self. split; [exact Hself |]. split; [exact Hl | exact Hd].
Qed.

End Paths.

(** The last component contains no separator. *)
Lemma cut_at_last_sep_tail (p : string) :
  PosixPath.has_sep (PosixPath.cut_at_last_sep p).2 = false /\
  ((PosixPath.cut_at_last_sep p).1 = EmptyString -> (PosixPath.cut_at_last_sep p).2 = p).
Proof.
  induction p as [| c r [IHs IHe]]; [split; reflexivity |].
  cbn [PosixPath.cut_at_last_sep].
  destruct (PosixPath.cut_at_last_sep r) as [h t]. cbn in IHs, IHe.
  destruct h as [| c' h'].
  - specialize (IHe eq_refl). subst t.
    destruct (PosixPath.is_sep c) eqn:Hc; cbn.
    + split; [exact IHs | discriminate].
    + rewrite Hc, IHs. split; reflexivity.
  - cbn. split; [exact IHs | discriminate].
Qed.

(** On POSIX the path reads [<directory>/<basename>.lock] for a directory
    given without a trailing separator. *)
Lemma posix_lockfile_shape (d : string) (t dl : Q) :
  d <> EmptyString ->
  PosixPath.ends_with_sep d = false ->
  lockfile (@__init__ posixpath d t dl) = d ++ "/" ++ (PosixPath.split d).2 ++ ".lock".
Proof.
  intros Hne Hend. cbn. unfold PosixPath.join, PosixPath.split.
  pose proof (cut_at_last_sep_tail d) as [Hs _].
  destruct (PosixPath.cut_at_last_sep d) as [h tl]. cbn in *.
  assert (Hst : PosixPath.starts_with_sep (tl ++ ".lock") = false).
  { destruct tl as [| c tl']; [reflexivity |]. cbn in *.
    apply orb_false_iff in Hs. tauto. }
  rewrite Hst. destruct d; [congruence |]. rewrite Hend. reflexivity.
Qed.

(** A path that ends with a separator is cut after its last character. *)
Lemma cut_at_last_sep_closed (d : string) :
  PosixPath.ends_with_sep d = true ->
  PosixPath.cut_at_last_sep d = (d, EmptyString).
Proof.
  induction d as [| c r IH]; [discriminate |].
  destruct r as [| c' r'].
  - cbn. intros ->. reflexivity.
  - intros Hend. change (PosixPath.ends_with_sep (String c' r') = true) in Hend.
    cbn [PosixPath.cut_at_last_sep] in *. rewrite (IH Hend). reflexivity.
Qed.

(** Without a last component the lock file is the directory followed by
    [.lock]. *)
Lemma posix_lockfile_without_basename (d : string) (t dl : Q) :
  d = EmptyString \/ PosixPath.ends_with_sep d = true ->
  (PosixPath.split d).2 = EmptyString /\
  lockfile (@__init__ posixpath d t dl) = d ++ ".lock".
Proof.
  intros [-> | Hend]; [split; reflexivity |].
  cbn. unfold PosixPath.split. rewrite (cut_at_last_sep_closed d Hend). cbn.
  split; [reflexivity |].
  unfold PosixPath.join. cbn. rewrite Hend. destruct d; reflexivity.
Qed.

(** C9, as the code has it.  With POSIX paths, the constructor sets the
    lock file path to [os.path.join(directory, last component + ".lock")],
    where the last component is what follows the last separator.  For a
    non-empty directory that does not end with a separator this is
    [<directory>/<last component>.lock]; for an empty directory or one
    that ends with a separator the last component is empty and the path
    is the directory immediately followed by [.lock].  Whatever is done
    later with this or any other lock object, the object still carries
    that same path and the same directory. *)
Theorem posix_lockfile_path :
  forall (d : string) (t dl : Q) (p : Proc) (ops : list op),
    lockfile (@__init__ posixpath d t dl) =
      PosixPath.join d ((PosixPath.split d).2 ++ ".lock") /\
    PosixPath.has_sep (PosixPath.split d).2 = false /\
    (d <> EmptyString ->
     PosixPath.ends_with_sep d = false ->
     lockfile (@__init__ posixpath d t dl) = d ++ "/" ++ (PosixPath.split d).2 ++ ".lock") /\
    (d = EmptyString \/ PosixPath.ends_with_sep d = true ->
     (PosixPath.split d).2 = EmptyString /\
     lockfile (@__init__ posixpath d t dl) = d ++ ".lock") /\
    exists self,
      objs (@run posixpath ops (@new posixpath d t dl p).2) !! length (objs p) = Some self /\
      lockfile self = lockfile (@__init__ posixpath d t dl) /\
      directory self = d.
Proof.
  intros d t dl p ops.
  split; [reflexivity |]. split; [| split; [| split]].
  - unfold PosixPath.split.
    pose proof (cut_at_last_sep_tail d) as [Hs _].
    destruct (PosixPath.cut_at_last_sep d) as [h tl]. exact Hs.
  - apply posix_lockfile_shape.
  - apply posix_lockfile_without_basename.
  - destruct (@run_config posixpath ops (@new posixpath d t dl p).2 (length (objs p))
                (@__init__ posixpath d t dl))
      as (self & Hself & Hl & Hd & _).
    { cbn. apply list_lookup_middle. reflexivity. }
    exists self. split; [exact Hself |]. split; [exact Hl | exact Hd].
Qed.

(** C9 as stated fails.  The path is not always
    [<directory>/<last component>.lock]: for a directory written with a
    trailing separator, for the root and for the empty directory, no
    separator is inserted. *)
Lemma lockfile_is_not_always_directory_slash_basename :
  (lockfile (@__init__ posixpath "work/" default_timeout default_delay) = "work/.lock" /\
   lockfile (@__init__ posixpath "work/" default_timeout default_delay) <>
     "work/" ++ "/" ++ (PosixPath.split "work/").2 ++ ".lock") /\
  (lockfile (@__init__ posixpath "/" default_timeout default_delay) = "/.lock" /\
   lockfile (@__init__ posixpath "/" default_timeout default_delay) <>
     "/" ++ "/" ++ (PosixPath.split "/").2 ++ ".lock") /\
  (lockfile (@__init__ posixpath "" default_timeout default_delay) = ".lock" /\
   lockfile (@__init__ posixpath "" default_timeout default_delay) <>
     "" ++ "/" ++ (PosixPath.split "").2 ++ ".lock").
Proof.
  repeat split; try reflexivity; vm_compute; intros [=].
Qed.

Lemma posix_lockfile_path_witness :
  lockfile (@__init__ posixpath "/tmp/work" default_timeout default_delay) =
    "/tmp/work/work.lock" /\
  lockfile (@__init__ posixpath "work/" default_timeout default_delay) = "work/.lock".
Proof.
  destruct (posix_lockfile_path "/tmp/work" default_timeout default_delay
              (start Scenario.quiet) []) as (_ & _ & Hplain & _ & _).
  destruct (posix_lockfile_path "work/" default_timeout default_delay
              (start Scenario.quiet) []) as (_ & _ & _ & Htrail & _).
  split.
  - apply Hplain; [discriminate | reflexivity].
  - apply Htrail. right. reflexivity.
Defined.

Example split_ex1 : PosixPath.split "/tmp/work" = ("/tmp", "work").
Proof. reflexivity. Qed.
Example split_ex2 : PosixPath.split "work/" = ("work", "").
Proof. reflexivity. Qed.
Example split_ex3 : PosixPath.split "/work" = ("/", "work").
Proof. reflexivity. Qed.
Example split_ex4 : PosixPath.split "a//b" = ("a", "b").
Proof. reflexivity. Qed.
Example join_ex1 : PosixPath.join "/tmp/work" "work.lock" = "/tmp/work/work.lock".
Proof. reflexivity. Qed.
Example lockfile_ex1 : lockfile Scenario.work = "/tmp/work/work.lock".
Proof. reflexivity. Qed.
Example lockfile_ex2 : lockfile (__init__ "work/" 0 0) = "work/.lock".
Proof. reflexivity. Qed.

(* ===================================================================== *)
(** ** Acquire, release, acquire again *)
(* ===================================================================== *)

(** A create attempt on a usable path with no file succeeds. *)
Lemma os_open_ok (path : string) (w : World) :
  fault w !! path = None ->
  path ∉ files w ->
  os_open path w =
  (inr (fresh (dom (fds w))),
   mkWorld ({[path]} ∪ files w) (<[fresh (dom (fds w)) := path]> (fds w))
           (fault w) (now w) (env w) (EvOpen path :: log w)).
Proof.
  intros Hf Hnot. unfold os_open. cbn.
  destruct (decide (path ∈ files w)); [contradiction |]. rewrite Hf. reflexivity.
Qed.

(** A create attempt on a usable path whose file exists reports it. *)
Lemma os_open_exists (path : string) (w : World) :
  fault w !! path = None ->
  path ∈ files w ->
  os_open path w = (inl EEXIST, record (EvOpen path) w).
Proof.
  intros Hf Hin. unfold os_open. cbn.
  destruct (decide (path ∈ files w)); [reflexivity | contradiction].
Qed.

Lemma acquire_free (fuel : nat) (self : DirLock) (w : World) :
  fault w !! lockfile self = None ->
  lockfile self ∉ files w ->
  acquire (S fuel) self w =
  (Return tt, set_is_locked true (set_fd (fresh (dom (fds w))) self),
   mkWorld ({[lockfile self]} ∪ files w)
           (<[fresh (dom (fds w)) := lockfile self]> (fds w))
           (fault w) (now w) (env w) (EvOpen (lockfile self) :: log w)).
Proof.
  intros Hf Hnot. rewrite acquire_eq, acquire_loop_S, os_open_ok by assumption.
  reflexivity.
Qed.

(** [release] of a lock whose descriptor is open and whose file is there
    and removable. *)
Lemma release_held (self : DirLock) (w : World) (n : nat) (path : string) :
  is_locked self = true ->
  fd self = Some n ->
  fds w !! n = Some path ->
  lockfile self ∈ files w ->
  fault w !! lockfile self = None ->
  release self w =
  (Return tt, set_is_locked false self,
   mkWorld (files w ∖ {[lockfile self]}) (delete n (fds w)) (fault w) (now w) (env w)
           (EvUnlink (lockfile self) :: EvClose n :: log w)).
Proof.
  intros Hl Hfd Hn Hin Hf. rewrite release_eq, Hl, Hfd.
  unfold os_close. cbn. rewrite Hn.
  unfold os_unlink. cbn. rewrite Hf.
  destruct (decide (lockfile self ∈ files w)); [reflexivity | contradiction].
Qed.

(** C7.  From an unlocked object, with no lock file on disk and a usable
    directory: [acquire] succeeds at its first attempt; the [release] that
    follows succeeds too, leaves no lock file (the set of files and the
    table of descriptors are as before) and leaves the object unlocked;
    and after that an [acquire] by any object with the same lock file, the
    same one included, succeeds at its first create attempt, without
    sleeping. *)
Theorem acquire_release_round_trip :
  forall (fuel : nat) (self : DirLock) (w : World),
    is_locked self = false ->
    lockfile self ∉ files w ->
    fault w !! lockfile self = None ->
    exists (n : nat) (w1 w2 : World),
      let held := set_is_locked true (set_fd n self) in
      let freed := set_is_locked false (set_fd n self) in
      acquire (S fuel) self w = (Return tt, held, w1) /\
      release held w1 = (Return tt, freed, w2) /\
      is_locked freed = false /\
      (lockfile self ∉ files w2) /\ files w2 = files w /\ fds w2 = fds w /\
      opens w1 = S (opens w) /\ sleeps w2 = sleeps w /\
      forall (fuel' : nat) (other : DirLock),
        other = freed \/ lockfile other = lockfile self ->
        exists (n' : nat) (w3 : World),
          acquire (S fuel') other w2 =
            (Return tt, set_is_locked true (set_fd n' other), w3) /\
          lockfile self ∈ files w3 /\
          opens w3 = S (opens w2) /\ sleeps w3 = sleeps w2.
Proof.
  intros fuel self w Hunl Hnot Hf.
  set (n := fresh (dom (fds w))).
  assert (Hn : fds w !! n = None) by (apply not_elem_of_dom, is_fresh).
  eexists n, _, _. cbn zeta.
  split; [apply acquire_free; assumption |].
  split.
  { erewrite (release_held _ _ n (lockfile self)); cbn; try reflexivity.
    - apply lookup_insert_eq.
    - set_solver.
    - exact Hf. }
  cbn [files fds fault log].
  assert (Hfiles : ({[lockfile self]} ∪ files w) ∖ {[lockfile self]} = files w)
    by set_solver.
  split; [reflexivity |].
  split; [rewrite Hfiles; exact Hnot |].
  split; [exact Hfiles |].
  split; [apply delete_insert_id; exact Hn |].
  split; [reflexivity |]. split; [reflexivity |].
  intros fuel' other Hother.
  assert (Hsame : lockfile other = lockfile self)
    by (destruct Hother as [-> | Heq]; [reflexivity | exact Heq]).
  eexists _, _. split.
  { apply acquire_free; cbn [files fault]; rewrite Hsame;
      [exact Hf | rewrite Hfiles; exact Hnot]. }
  cbn. rewrite Hsame. split; [set_solver |]. split; reflexivity.
Qed.

Lemma acquire_release_round_trip_witness :
  exists (n : nat) (w1 w2 : World),
    acquire 1 Scenario.work Scenario.quiet =
      (Return tt, set_is_locked true (set_fd n Scenario.work), w1) /\
    release (set_is_locked true (set_fd n Scenario.work)) w1 =
      (Return tt, set_is_locked false (set_fd n Scenario.work), w2) /\
    files w2 = files Scenario.quiet.
Proof.
  destruct (acquire_release_round_trip 0 Scenario.work Scenario.quiet)
    as (n & w1 & w2 & Ha & Hr & _ & _ & Hfiles & _).
  - reflexivity.
  - apply not_elem_of_empty.
  - reflexivity.
  - exists n, w1, w2. split; [exact Ha |]. split; [exact Hr | exact Hfiles].
Defined.

(* ===================================================================== *)
(** ** Scoped acquisition and automatic cleanup *)
(* ===================================================================== *)

(** [release] makes at most two system calls: it always comes back. *)
Lemma release_outcome (self : DirLock) (w : World) :
  (exists self' w', release self w = (Return tt, self', w')) \/
  (exists e self' w', release self w = (Raise e, self', w')).
Proof.
  rewrite release_eq. repeat case_match; eauto.
Qed.

Lemma exit_outcome (exc : option exn) (self : DirLock) (w : World) :
  (exists self' w', __exit__ exc self w = (Return PyNone, self', w')) \/
  (exists e self' w', __exit__ exc self w = (Raise e, self', w')).
Proof.
  rewrite exit_eq. destruct (is_locked self); [| eauto].
  destruct (release_outcome self w) as [(s' & w' & ->) | (e & s' & w' & ->)]; eauto.
Qed.

Lemma call_exit_outcome (mgr : ref) (exc : option exn) (p : Proc) :
  (exists p', call mgr (__exit__ exc) p = (Return PyNone, p')) \/
  (exists e p', call mgr (__exit__ exc) p = (Raise e, p')).
Proof.
  unfold call. destruct (objs p !! mgr) as [self |]; [| eauto].
  destruct (exit_outcome exc self (os p)) as [(s' & w' & ->) | (e & s' & w' & ->)]; eauto.
Qed.

(** [__exit__] on an object that satisfies the invariant of the data model
    and whose lock file can be removed. *)
Lemma exit_clean (exc : option exn) (self : DirLock) (w : World) :
  lock_inv self w ->
  fault w !! lockfile self = None ->
  exists w', __exit__ exc self w = (Return PyNone, set_is_locked false self, w') /\
             (is_locked self = true -> lockfile self ∉ files w').
Proof.
  intros Hinv Hf. rewrite exit_eq. destruct (is_locked self) eqn:Hl.
  - destruct (Hinv Hl) as (Hin & n & Hfd & Hn).
    rewrite (release_held self w n (lockfile self)) by assumption.
    eexists. split; [reflexivity |]. intros _. cbn. set_solver.
  - exists w. split; [| discriminate].
    destruct self; cbn in *; subst; reflexivity.
Qed.

(** C4, as the code has it.  Destruction never lets an error of [release]
    out: the interpreter drops whatever [__del__] raises.  Leaving a scope
    does: when the lock is held, [__exit__] raises exactly what [release]
    raises.  It returns normally when the lock is not held, and when the
    stored descriptor is open on the lock file, the file exists and it can
    be removed. *)
Theorem cleanup_errors :
  (forall (r : ref) (p : Proc), exists p', finalize r p = (Return tt, p')) /\
  (forall (exc : option exn) (self self' : DirLock) (w w' : World) (e : exn),
      is_locked self = true ->
      release self w = (Raise e, self', w') ->
      __exit__ exc self w = (Raise e, self', w')) /\
  (forall (exc : option exn) (self : DirLock) (w : World),
      is_locked self = false ->
      __exit__ exc self w = (Return PyNone, self, w)) /\
  (forall (exc : option exn) (self : DirLock) (w : World),
      is_locked self = true ->
      lock_inv self w ->
      fault w !! lockfile self = None ->
      exists w', __exit__ exc self w = (Return PyNone, set_is_locked false self, w') /\
                 lockfile self ∉ files w').
Proof.
  repeat split.
  - intros r p. unfold finalize, call, __del__.
    destruct (objs p !! r) as [self |]; [| eauto].
    destruct (release_outcome self (os p)) as [(s' & w' & ->) | (e & s' & w' & ->)]; eauto.
  - intros exc self self' w w' e Hl Hrel. rewrite exit_eq, Hl, Hrel. reflexivity.
  - intros exc self w Hl. rewrite exit_eq, Hl. reflexivity.
  - intros exc self w Hl Hinv Hf.
    destruct (exit_clean exc self w Hinv Hf) as (w' & Hex & Hgone). eauto.
Qed.

(** C5, as the code has it.  Entering a scope: on a locked object
    [__enter__] does nothing, on an unlocked one it does what [acquire]
    does, and the value it returns, which the block receives, is the
    object it was called on.  Leaving a scope: [__exit__] does what
    [release] does if the object is locked and nothing otherwise, and it
    runs on the state the block left, whether the block returned or
    raised.  A failure of the block is never swallowed.  It is the failure
    the [with] statement ends with whenever [__exit__] returns, which it
    does when the object satisfies the invariant of the data model and the
    lock file can be removed; when [release] raises inside [__exit__], the
    [with] statement ends with the error of [release] instead. *)
Theorem scoped_acquisition :
  (forall (this : ref) (fuel : nat) (self : DirLock) (w : World),
      (is_locked self = true -> __enter__ this fuel self w = (Return this, self, w)) /\
      (is_locked self = false ->
       (__enter__ this fuel self w).1.2 = (acquire fuel self w).1.2 /\
       (__enter__ this fuel self w).2 = (acquire fuel self w).2 /\
       (__enter__ this fuel self w).1.1 =
         match (acquire fuel self w).1.1 with
         | Return _ => Return this
         | Raise e => Raise e
         | OutOfFuel => OutOfFuel
         end)) /\
  (forall (mgr : ref) (fuel : nat) (body : ref -> P unit) (p : Proc),
      with_stmt mgr fuel body p = with_stmt mgr fuel (fun _ => body mgr) p) /\
  (forall (exc : option exn) (self : DirLock) (w : World),
      (is_locked self = true ->
       (__exit__ exc self w).1.2 = (release self w).1.2 /\
       (__exit__ exc self w).2 = (release self w).2) /\
      (is_locked self = false -> __exit__ exc self w = (Return PyNone, self, w))) /\
  (forall (mgr : ref) (fuel : nat) (body : ref -> P unit) (p p1 p2 : Proc),
      call mgr (__enter__ mgr fuel) p = (Return mgr, p1) ->
      body mgr p1 = (Return tt, p2) ->
      (with_stmt mgr fuel body p).2 = (call mgr (__exit__ None) p2).2) /\
  (forall (mgr : ref) (fuel : nat) (body : ref -> P unit) (p p1 p2 : Proc) (e : exn),
      call mgr (__enter__ mgr fuel) p = (Return mgr, p1) ->
      body mgr p1 = (Raise e, p2) ->
      (with_stmt mgr fuel body p).2 = (call mgr (__exit__ (Some e)) p2).2 /\
      (exists e', (with_stmt mgr fuel body p).1 = Raise e') /\
      (forall v, (call mgr (__exit__ (Some e)) p2).1 = Return v ->
                 (with_stmt mgr fuel body p).1 = Raise e) /\
      (forall e' p3, call mgr (__exit__ (Some e)) p2 = (Raise e', p3) ->
                     with_stmt mgr fuel body p = (Raise e', p3)) /\
      (forall s2, objs p2 !! mgr = Some s2 ->
                  lock_inv s2 (os p2) ->
                  fault (os p2) !! lockfile s2 = None ->
                  exists p3,
                    with_stmt mgr fuel body p = (Raise e, p3) /\
                    objs p3 !! mgr = Some (set_is_locked false s2) /\
                    (is_locked s2 = true -> lockfile s2 ∉ files (os p3)))).
Proof.
  split; [| split; [| split; [| split]]].
  - intros this fuel self w. rewrite enter_eq. split; intros ->; [reflexivity |].
    destruct (acquire fuel self w) as [[[[] | e |] self'] w']; cbn; auto.
  - intros mgr fuel body p. unfold with_stmt.
    destruct (objs p !! mgr) as [self |] eqn:Hr; unfold call; rewrite Hr; [| reflexivity].
    rewrite enter_eq. destruct (is_locked self); [reflexivity |].
    destruct (acquire fuel self (os p)) as [[[[] | e |] self'] w']; reflexivity.
  - intros exc self w. rewrite exit_eq. split; intros ->; [| reflexivity].
    destruct (release self w) as [[[[] | e |] self'] w']; cbn; auto.
  - intros mgr fuel body p p1 p2 Hen Hbody. unfold with_stmt. rewrite Hen, Hbody.
    destruct (call mgr (__exit__ None) p2) as [[v | e' |] p3]; reflexivity.
  - intros mgr fuel body p p1 p2 e Hen Hbody. unfold with_stmt. rewrite Hen, Hbody.
    split; [| split; [| split; [| split]]].
    + destruct (call_exit_outcome mgr (Some e) p2) as [(p3 & ->) | (e' & p3 & ->)];
        reflexivity.
    + destruct (call_exit_outcome mgr (Some e) p2) as [(p3 & ->) | (e' & p3 & ->)];
        cbn; eauto.
    + intros v Hv.
      destruct (call_exit_outcome mgr (Some e) p2) as [(p3 & Hc) | (e' & p3 & Hc)];
        rewrite Hc in *; cbn in *; [reflexivity | discriminate].
    + intros e' p3 Hc. rewrite Hc. reflexivity.
    + intros s2 Hs2 Hinv Hf.
      destruct (exit_clean (Some e) s2 (os p2) Hinv Hf) as (w' & Hex & Hgone).
      unfold call. rewrite Hs2, Hex. cbn. eexists. split; [reflexivity |].
      cbn. split; [| exact Hgone].
      apply list_lookup_insert_eq. eapply lookup_lt_Some; eassumption.
Qed.

(** C4 as stated fails.  The scoped-exit path does raise: another actor removes the lock file
    while the block runs, and the [with] statement ends with the [OSError]
    of the failed [unlink]; if the block was itself failing, that
    [OSError] takes the place of the block's failure. *)
Lemma scoped_exit_surfaces_release_error :
  (__exit__ None Scenario.work_held Scenario.orphaned).1.1 = Raise (OSError ENOENT) /\
  (with_stmt 0 1 (Scenario.someone_removes Scenario.work_lock)
     (Scenario.one_lock Scenario.quiet)).1 = Raise (OSError ENOENT) /\
  (with_stmt 0 1 (Scenario.interfered_failing_body Scenario.work_lock (OtherError "boom"))
     (Scenario.one_lock Scenario.quiet)).1 = Raise (OSError ENOENT).
Proof. repeat split; vm_compute; reflexivity. Qed.

Lemma cleanup_errors_witness :
  (exists w', __exit__ None Scenario.work_held Scenario.orphaned =
              (Raise (OSError ENOENT), Scenario.work_held, w')) /\
  (exists w', __exit__ None Scenario.work_held Scenario.ours =
              (Return PyNone, set_is_locked false Scenario.work_held, w')).
Proof.
  destruct cleanup_errors as (_ & Hraise & _ & Hclean). split.
  - eexists. apply Hraise; [reflexivity | vm_compute; reflexivity].
  - destruct (Hclean None Scenario.work_held Scenario.ours) as (w' & Hex & _).
    + reflexivity.
    + intros _. split.
      * change (Scenario.work_lock ∈ ({[Scenario.work_lock]} : gset string)).
        apply elem_of_singleton_2. reflexivity.
      * exists 0%nat. split; reflexivity.
    + reflexivity.
    + exists w'. exact Hex.
Defined.

(** C5 as stated fails.  The block removes the lock file and then fails
    with an error of its own: [release] raises inside [__exit__], and the
    [with] statement ends with the [OSError] of the failed [unlink], not
    with the failure of the block.  So it is not true that every failure
    of a block comes out of the [with] statement unchanged. *)
Lemma body_failure_replaced_by_release_error :
  (with_stmt 0 1 (Scenario.unlinks_and_fails (OtherError "boom"))
     (Scenario.one_lock Scenario.quiet)).1 = Raise (OSError ENOENT) /\
  ~ (forall (mgr : ref) (fuel : nat) (body : ref -> P unit) (p p1 p2 : Proc) (e : exn),
        call mgr (__enter__ mgr fuel) p = (Return mgr, p1) ->
        body mgr p1 = (Raise e, p2) ->
        (with_stmt mgr fuel body p).1 = Raise e).
Proof.
  assert (Hrun : (with_stmt 0 1 (Scenario.unlinks_and_fails (OtherError "boom"))
                    (Scenario.one_lock Scenario.quiet)).1 = Raise (OSError ENOENT))
    by (vm_compute; reflexivity).
  split; [exact Hrun |].
  intros Hall.
  specialize (Hall 0%nat 1%nat (Scenario.unlinks_and_fails (OtherError "boom"))
                (Scenario.one_lock Scenario.quiet)
                (call 0 (__enter__ 0%nat 1) (Scenario.one_lock Scenario.quiet)).2
                (Scenario.unlinks_and_fails (OtherError "boom") 0%nat
                   (call 0 (__enter__ 0%nat 1) (Scenario.one_lock Scenario.quiet)).2).2
                (OtherError "boom")).
  rewrite Hrun in Hall.
  assert (Hbad : Raise (OSError ENOENT) = @Raise unit (OtherError "boom")).
  { apply Hall; vm_compute; reflexivity. }
  discriminate Hbad.
Qed.

Lemma scoped_acquisition_witness :
  exists p3,
    with_stmt 0 1 (Scenario.failing_body (OtherError "boom"))
      (Scenario.one_lock Scenario.quiet) = (Raise (OtherError "boom"), p3) /\
    objs p3 !! 0%nat = Some (set_is_locked false Scenario.work_held) /\
    (is_locked Scenario.work_held = true -> Scenario.work_lock ∉ files (os p3)).
Proof.
  destruct scoped_acquisition as (_ & _ & _ & _ & Hfail).
  set (p1 := (call 0 (__enter__ 0%nat 1) (Scenario.one_lock Scenario.quiet)).2).
  destruct (Hfail 0%nat 1%nat (Scenario.failing_body (OtherError "boom"))
              (Scenario.one_lock Scenario.quiet) p1 p1 (OtherError "boom"))
    as (_ & _ & _ & _ & Hclean).
  - vm_compute. reflexivity.
  - reflexivity.
  - apply (Hclean Scenario.work_held).
    + vm_compute. reflexivity.
    + intros _. split.
      * apply elem_of_union_l, elem_of_singleton_2. reflexivity.
      * exists 0%nat. split; vm_compute; reflexivity.
    + vm_compute. reflexivity.
Defined.

(* ===================================================================== *)
(** ** Contention *)
(* ===================================================================== *)

Lemma later_refl (w : World) : Forall benign (env w) -> later w w.
Proof. intros Hb. repeat split; auto. apply Qle_refl. Qed.

Lemma later_trans (w1 w2 w3 : World) : later w1 w2 -> later w2 w3 -> later w1 w3.
Proof.
  intros (Hf1 & Hd1 & Hq1 & _ & Ht1) (Hf2 & Hd2 & Hq2 & Hb2 & Ht2).
  repeat split; auto.
  - set_solver.
  - congruence.
  - eapply Qle_trans; eassumption.
Qed.

Lemma later_record (ev : event) (w : World) : Forall benign (env w) -> later w (record ev w).
Proof. intros Hb. repeat split; auto. apply Qle_refl. Qed.

(** A sleep among benign actors, and how far it moves the clock. *)
Lemma later_sleep (d : Q) (w : World) :
  Forall benign (env w) ->
  (0 <= d)%Q ->
  later w (sleep_for d w) /\ (now w + d <= now (sleep_for d w))%Q.
Proof.
  intros Hb Hd. unfold sleep_for. cbn.
  destruct (env w) as [| a rest] eqn:He.
  - unfold later. cbn. repeat split; auto; lra.
  - apply Forall_cons in Hb as [Ha Hrest].
    destruct a as [q | q | q [e |] | dt]; cbn in Ha; try contradiction;
      unfold later; cbn; repeat split; auto; try lra; try set_solver.
    intros q' Hq'. apply lookup_delete_None. auto.
Qed.

(** As long as the file is there, a create attempt fails. *)
Lemma os_open_present (path : string) (w : World) :
  path ∈ files w ->
  exists e, os_open path w = (inl e, record (EvOpen path) w).
Proof.
  intros Hin. unfold os_open. cbn.
  destruct (decide (path ∈ files w)); [eauto | contradiction].
Qed.

(** While the lock file stays, [acquire] cannot succeed, and it leaves the
    object as it found it. *)
Lemma acquire_loop_present (fuel : nat) (start : Q) (self : DirLock) (w : World) :
  lockfile self ∈ files w ->
  Forall benign (env w) ->
  (acquire_loop fuel start self w).1.2 = self /\
  later w (acquire_loop fuel start self w).2 /\
  forall v, (acquire_loop fuel start self w).1.1 <> Return v.
Proof.
  revert w. induction fuel as [| fuel IH]; intros w Hin Hb.
  { cbn. split; [reflexivity |]. split; [by apply later_refl | discriminate]. }
  rewrite acquire_loop_S.
  destruct (os_open_present _ _ Hin) as (e & ->).
  pose proof (later_record (EvOpen (lockfile self)) w Hb) as Hrec.
  destruct (bool_decide (e = EEXIST)); [| cbn; split; [| split]; auto; discriminate].
  destruct (Qeq_bool (timeout self) 0); [cbn; split; [| split]; auto; discriminate |].
  destruct (Qle_bool (timeout self) _); [cbn; split; [| split]; auto; discriminate |].
  destruct (Qle_bool 0 (delay self)) eqn:Hd;
    [| cbn; split; [| split]; auto; discriminate].
  apply Qle_bool_iff in Hd.
  destruct (later_sleep (delay self) (record (EvOpen (lockfile self)) w)) as [Hl _];
    [exact Hb | exact Hd |].
  destruct (IH (sleep_for (delay self) (record (EvOpen (lockfile self)) w)))
    as (Hs & Hl' & Hne).
  - destruct Hl as (Hsub & _). apply Hsub. exact Hin.
  - destruct Hl as (_ & _ & _ & Hb' & _). exact Hb'.
  - split; [exact Hs |]. split; [| exact Hne].
    eapply later_trans; [exact Hrec |]. eapply later_trans; eassumption.
Qed.

Lemma span_S (k : nat) (d : Q) : (span (S k) d == span k d + d)%Q.
Proof.
  unfold span. rewrite Nat2Z.inj_succ. unfold Z.succ. rewrite inject_Z_plus. ring.
Qed.

(** The loop gives up once the retry delays add up to the timeout. *)
Lemma acquire_loop_gives_up (k : nat) :
  forall (fuel : nat) (start : Q) (self : DirLock) (w : World),
    lockfile self ∈ files w ->
    fault w !! lockfile self = None ->
    Forall benign (env w) ->
    ~ (timeout self == 0)%Q ->
    (0 < delay self)%Q ->
    (timeout self - (now w - start) <= span k (delay self))%Q ->
    (k < fuel)%nat ->
    exists w', acquire_loop fuel start self w = (Raise LockTimeout, self, w').
Proof.
  induction k as [| k IH]; intros fuel start self w Hin Hf Hb Hnz Hd Hk Hfuel;
    (destruct fuel as [| fuel]; [lia |]);
    rewrite acquire_loop_S, os_open_exists by assumption;
    rewrite bool_decide_eq_true_2 by reflexivity;
    (destruct (Qeq_bool (timeout self) 0) eqn:Hq;
       [apply Qeq_bool_iff in Hq; contradiction |]);
    cbn [now record];
    (destruct (Qle_bool (timeout self) (now w - start)) eqn:Hle; [eauto |]).
  - exfalso. apply not_true_iff_false in Hle. apply Hle, Qle_bool_iff.
    unfold span in Hk. change (inject_Z (Z.of_nat 0)) with 0%Q in Hk. lra.
  - assert (Hd' : Qle_bool 0 (delay self) = true) by (apply Qle_bool_iff; lra).
    rewrite Hd'.
    destruct (later_sleep (delay self) (record (EvOpen (lockfile self)) w))
      as [(Hsub & _ & Hflt & Hb' & _) Hnow]; [exact Hb | lra |].
    apply IH; auto.
    + cbn in Hnow. rewrite span_S in Hk. lra.
    + lia.
Qed.

Lemma max_attempts_enough (self : DirLock) :
  (0 < delay self)%Q ->
  (timeout self <= span (Z.to_nat (Qceiling (timeout self / delay self))) (delay self))%Q.
Proof.
  intros Hd. unfold span.
  set (c := Qceiling (timeout self / delay self)).
  assert (H1 : (timeout self / delay self <= inject_Z c)%Q) by apply Qle_ceiling.
  assert (H2 : (inject_Z c <= inject_Z (Z.of_nat (Z.to_nat c)))%Q).
  { rewrite <- Zle_Qle. lia. }
  assert (H3 : (timeout self / delay self * delay self
                <= inject_Z (Z.of_nat (Z.to_nat c)) * delay self)%Q).
  { apply Qmult_le_compat_r; [eapply Qle_trans; eassumption | lra]. }
  assert (H4 : (timeout self / delay self * delay self == timeout self)%Q).
  { field. lra. }
  rewrite H4 in H3. exact H3.
Qed.

(** C10.  An object that holds the lock, in a world where its lock file is
    there and the other actors leave it there, cannot acquire again: no
    call of [acquire] on it succeeds, however many iterations it is given,
    and the object stays as it was.  With a usable directory the call ends
    with the "could not acquire" failure when the timeout is zero, and
    otherwise, with a positive retry delay, with the "timeout" failure,
    after at most [max_attempts] create attempts. *)
Theorem no_reentrant_acquire :
  forall (self : DirLock) (w : World),
    is_locked self = true ->
    lock_inv self w ->
    Forall benign (env w) ->
    (forall (fuel : nat),
        (acquire fuel self w).1.2 = self /\
        forall v, (acquire fuel self w).1.1 <> Return v) /\
    (fault w !! lockfile self = None ->
     ((timeout self == 0)%Q ->
      forall (fuel : nat),
        exists w', acquire (S fuel) self w = (Raise (LockUnavailable self), self, w')) /\
     (~ (timeout self == 0)%Q ->
      (0 < delay self)%Q ->
      forall (fuel : nat),
        (max_attempts self <= fuel)%nat ->
        exists w', acquire fuel self w = (Raise LockTimeout, self, w'))).
Proof.
  intros self w Hl Hinv Hb. destruct (Hinv Hl) as (Hin & _).
  split.
  - intros fuel. rewrite acquire_eq.
    destruct (acquire_loop_present fuel (now w) self w Hin Hb) as (Hs & _ & Hne).
    split; assumption.
  - intros Hf. split.
    + intros Hz fuel. eexists.
      rewrite acquire_eq, acquire_loop_S, os_open_exists by assumption.
      rewrite bool_decide_eq_true_2 by reflexivity.
      apply Qeq_bool_iff in Hz. rewrite Hz. reflexivity.
    + intros Hnz Hd fuel Hfuel. rewrite acquire_eq.
      apply (acquire_loop_gives_up (Z.to_nat (Qceiling (timeout self / delay self))));
        try assumption.
      pose proof (max_attempts_enough self Hd). lra.
Qed.

Lemma no_reentrant_acquire_witness :
  exists w', acquire 3 Scenario.work_brief_held Scenario.ours =
             (Raise (DirLockException "Timeout occurred."), Scenario.work_brief_held, w').
Proof.
  destruct (no_reentrant_acquire Scenario.work_brief_held Scenario.ours) as (_ & Hend).
  - reflexivity.
  - intros _. split.
    + change (Scenario.work_lock ∈ ({[Scenario.work_lock]} : gset string)).
      apply elem_of_singleton_2. reflexivity.
    + exists 0%nat. split; reflexivity.
  - constructor.
  - destruct Hend as (_ & Htimeout); [reflexivity |].
    apply Htimeout.
    + vm_compute. discriminate.
    + reflexivity.
    + vm_compute. lia.
Defined.

(* ===================================================================== *)
(** ** The invariant of the data model *)
(* ===================================================================== *)

(** What a successful create attempt did. *)
Lemma os_open_inr (path : string) (w w' : World) (n : nat) :
  os_open path w = (inr n, w') ->
  fault w !! path = None /\ (path ∉ files w) /\ fds w !! n = None /\
  w' = mkWorld ({[path]} ∪ files w) (<[n := path]> (fds w))
               (fault w) (now w) (env w) (EvOpen path :: log w).
Proof.
  unfold os_open. cbn.
  destruct (decide (path ∈ files w)); [discriminate |].
  destruct (fault w !! path); [discriminate |].
  intros Heq. inversion Heq. subst.
  repeat split; auto. apply not_elem_of_dom, is_fresh.
Qed.

(** Among benign actors [acquire] either changes nothing of ours or ends
    as [acquired] says. *)
Lemma acquire_loop_effect (fuel : nat) (start : Q) (self : DirLock) (w : World) :
  Forall benign (env w) ->
  ((acquire_loop fuel start self w).1.2 = self /\
   later w (acquire_loop fuel start self w).2) \/
  acquired self (acquire_loop fuel start self w).1.2 w (acquire_loop fuel start self w).2.
Proof.
  revert w. induction fuel as [| fuel IH]; intros w Hb.
  { left. cbn. split; [reflexivity | by apply later_refl]. }
  rewrite acquire_loop_S.
  pose proof (later_record (EvOpen (lockfile self)) w Hb) as Hrec.
  destruct (os_open (lockfile self) w) as [[err | n] w1] eqn:Hopen.
  - apply os_open_fail in Hopen. subst w1.
    destruct (bool_decide (err = EEXIST)); [| left; cbn; auto].
    destruct (Qeq_bool (timeout self) 0); [left; cbn; auto |].
    destruct (Qle_bool (timeout self) _); [left; cbn; auto |].
    destruct (Qle_bool 0 (delay self)) eqn:Hd; [| left; cbn; auto].
    apply Qle_bool_iff in Hd.
    destruct (later_sleep (delay self) (record (EvOpen (lockfile self)) w)) as [Hl _];
      [exact Hb | exact Hd |].
    assert (Hl' : later w (sleep_for (delay self) (record (EvOpen (lockfile self)) w)))
      by exact (later_trans _ _ _ Hrec Hl).
    destruct (IH (sleep_for (delay self) (record (EvOpen (lockfile self)) w)))
      as [[Hs Hlt] | (n & w1 & Hlt & Hrest)].
    + destruct Hl as (_ & _ & _ & Hb' & _). exact Hb'.
    + left. split; [exact Hs | eapply later_trans; eassumption].
    + right. exists n, w1. split; [eapply later_trans; eassumption | exact Hrest].
  - right. apply os_open_inr in Hopen as (Hf & Hnot & Hn & ->).
    exists n, w. cbn. repeat split; auto. by apply later_refl.
Qed.

Lemma sound_later (p : Proc) (w' : World) :
  sound p -> later (os p) w' -> sound (mkProc (objs p) w').
Proof.
  intros (Hb & Hheld & Hdist) (Hsub & Hfds & Hflt & Hb' & _).
  split; [exact Hb' |]. split; [| exact Hdist].
  intros r self Hr Hl. cbn in *.
  destruct (Hheld r self Hr Hl) as (Hin & Hf & n & Hfd & Hn).
  split; [set_solver |]. split; [auto |].
  exists n. split; [exact Hfd |]. rewrite Hfds. exact Hn.
Qed.

Lemma sound_acquired (p : Proc) (r : ref) (self self' : DirLock) (w' : World) :
  sound p ->
  objs p !! r = Some self ->
  acquired self self' (os p) w' ->
  sound (mkProc (<[r := self']> (objs p)) w').
Proof.
  intros Hs Hr (n & w1 & Hlt & Hnot & Hf & Hn & -> & Hfiles & Hfds & Hflt & Henv).
  destruct (sound_later p w1 Hs Hlt) as (Hb1 & Hheld1 & Hdist1). cbn in *.
  assert (Hlen : (r < length (objs p))%nat) by (eapply lookup_lt_Some; eassumption).
  split; [cbn; rewrite Henv; exact Hb1 |]. split.
  - intros r' s' Hr' Hl'. cbn in *. unfold held_ok. rewrite Hfiles, Hfds, Hflt.
    destruct (decide (r = r')) as [<- | Hne].
    + rewrite list_lookup_insert_eq in Hr' by exact Hlen. injection Hr' as <-. cbn.
      split; [set_solver |]. split; [exact Hf |].
      exists n. split; [reflexivity | apply lookup_insert_eq].
    + rewrite list_lookup_insert_ne in Hr' by exact Hne.
      destruct (Hheld1 r' s' Hr' Hl') as (Hin & Hf' & n' & Hfd' & Hn').
      split; [set_solver |]. split; [exact Hf' |].
      exists n'. split; [exact Hfd' |].
      rewrite lookup_insert_ne; [exact Hn' | congruence].
  - intros r1 r2 s1 s2 Hne H1 H2 Hl1 Hl2. cbn in *.
    destruct (decide (r = r1)) as [<- | Hne1]; destruct (decide (r = r2)) as [<- | Hne2];
      try congruence.
    + rewrite list_lookup_insert_eq in H1 by exact Hlen. injection H1 as <-.
      rewrite list_lookup_insert_ne in H2 by exact Hne2.
      destruct (Hheld1 r2 s2 H2 Hl2) as (Hin & _). cbn. congruence.
    + rewrite list_lookup_insert_eq in H2 by exact Hlen. injection H2 as <-.
      rewrite list_lookup_insert_ne in H1 by exact Hne1.
      destruct (Hheld1 r1 s1 H1 Hl1) as (Hin & _). cbn. congruence.
    + rewrite list_lookup_insert_ne in H1 by exact Hne1.
      rewrite list_lookup_insert_ne in H2 by exact Hne2.
      exact (Hdist1 r1 r2 s1 s2 Hne H1 H2 Hl1 Hl2).
Qed.

Lemma sound_same (p : Proc) (r : ref) (self : DirLock) :
  objs p !! r = Some self -> mkProc (<[r := self]> (objs p)) (os p) = p.
Proof. intros Hr. rewrite list_insert_id by exact Hr. destruct p; reflexivity. Qed.

Lemma call_acquire_sound (r : ref) (fuel : nat) (p : Proc) :
  sound p -> sound (call r (acquire fuel) p).2.
Proof.
  intros Hs. unfold call. destruct (objs p !! r) as [self |] eqn:Hr; [| exact Hs].
  rewrite acquire_eq.
  destruct (acquire_loop_effect fuel (now (os p)) self (os p)) as [[Hself Hlt] | Hacq];
    [apply Hs | |];
    destruct (acquire_loop fuel (now (os p)) self (os p)) as [[o self'] w']; cbn in *.
  - subst self'. rewrite list_insert_id by exact Hr. by apply sound_later.
  - eapply sound_acquired; eassumption.
Qed.

Lemma call_release_sound (r : ref) (p : Proc) :
  sound p -> sound (call r release p).2.
Proof.
  intros Hs. unfold call. destruct (objs p !! r) as [self |] eqn:Hr; [| exact Hs].
  destruct (is_locked self) eqn:Hl.
  2:{ rewrite release_when_unlocked by exact Hl. cbn. rewrite sound_same by exact Hr. exact Hs. }
  destruct Hs as (Hb & Hheld & Hdist).
  destruct (Hheld r self Hr Hl) as (Hin & Hf & n & Hfd & Hn).
  rewrite (release_held self (os p) n (lockfile self)) by assumption. cbn.
  assert (Hlen : (r < length (objs p))%nat) by (eapply lookup_lt_Some; eassumption).
  split; [exact Hb |]. split.
  - intros r' s' Hr' Hl'. cbn in *.
    destruct (decide (r = r')) as [<- | Hne].
    { rewrite list_lookup_insert_eq in Hr' by exact Hlen. injection Hr' as <-.
      discriminate. }
    rewrite list_lookup_insert_ne in Hr' by exact Hne.
    destruct (Hheld r' s' Hr' Hl') as (Hin' & Hf' & n' & Hfd' & Hn').
    pose proof (Hdist r r' self s' Hne Hr Hr' Hl Hl') as Hpath.
    unfold held_ok. cbn.
    split; [set_solver |]. split; [exact Hf' |].
    exists n'. split; [exact Hfd' |].
    rewrite lookup_delete_ne; [exact Hn' | congruence].
  - intros r1 r2 s1 s2 Hne H1 H2 Hl1 Hl2. cbn in *.
    destruct (decide (r = r1)) as [<- | Hne1].
    { rewrite list_lookup_insert_eq in H1 by exact Hlen. injection H1 as <-.
      discriminate. }
    destruct (decide (r = r2)) as [<- | Hne2].
    { rewrite list_lookup_insert_eq in H2 by exact Hlen. injection H2 as <-.
      discriminate. }
    rewrite list_lookup_insert_ne in H1 by exact Hne1.
    rewrite list_lookup_insert_ne in H2 by exact Hne2.
    exact (Hdist r1 r2 s1 s2 Hne H1 H2 Hl1 Hl2).
Qed.

Lemma call_enter_sound (r this : ref) (fuel : nat) (p : Proc) :
  sound p -> sound (call r (__enter__ this fuel) p).2.
Proof.
  intros Hs. pose proof (call_acquire_sound r fuel p Hs) as Hacq.
  unfold call in *. destruct (objs p !! r) as [self |] eqn:Hr; [| exact Hs].
  rewrite enter_eq. destruct (is_locked self).
  - cbn. rewrite sound_same by exact Hr. exact Hs.
  - destruct (acquire fuel self (os p)) as [[[[] | e |] self'] w']; exact Hacq.
Qed.

Lemma call_exit_sound (r : ref) (exc : option exn) (p : Proc) :
  sound p -> sound (call r (__exit__ exc) p).2.
Proof.
  intros Hs. pose proof (call_release_sound r p Hs) as Hrel.
  unfold call in *. destruct (objs p !! r) as [self |] eqn:Hr; [| exact Hs].
  rewrite exit_eq. destruct (is_locked self).
  - destruct (release self (os p)) as [[[[] | e |] self'] w']; exact Hrel.
  - cbn. rewrite sound_same by exact Hr. exact Hs.
Qed.

Lemma sound_start (w : World) : Forall benign (env w) -> sound (start w).
Proof.
  intros Hb. split; [exact Hb |]. split.
  - intros r self Hr. cbn in Hr. rewrite lookup_nil in Hr. discriminate.
  - intros r1 r2 s1 s2 _ Hr. cbn in Hr. rewrite lookup_nil in Hr. discriminate.
Qed.

Lemma sound_lock_inv (p : Proc) : sound p -> lock_inv_all p.
Proof.
  intros (_ & Hheld & _) r self Hr Hl.
  destruct (Hheld r self Hr Hl) as (Hin & _ & Hfd). split; assumption.
Qed.

Section Invariant.
Context {os_path : OsPath}.

Lemma new_sound (d : string) (t dl : Q) (p : Proc) :
  sound p -> sound (new d t dl p).2.
Proof.
  intros (Hb & Hheld & Hdist). split; [exact Hb |]. cbn. split.
  - intros r self Hr Hl. apply lookup_snoc_Some in Hr as [[_ Hr] | [_ <-]].
    + exact (Hheld r self Hr Hl).
    + discriminate.
  - intros r1 r2 s1 s2 Hne H1 H2 Hl1 Hl2.
    apply lookup_snoc_Some in H1 as [[_ H1] | [_ <-]]; [| discriminate].
    apply lookup_snoc_Some in H2 as [[_ H2] | [_ <-]]; [| discriminate].
    exact (Hdist r1 r2 s1 s2 Hne H1 H2 Hl1 Hl2).
Qed.

Lemma step_sound (o : op) (p : Proc) : sound p -> sound (step o p).
Proof.
  intros Hs. destruct o as [d t dl | r fuel | r | r fuel | r exc]; cbn [step].
  - by apply new_sound.
  - by apply call_acquire_sound.
  - by apply call_release_sound.
  - by apply call_enter_sound.
  - by apply call_exit_sound.
Qed.

Lemma run_sound (ops : list op) (p : Proc) : sound p -> sound (run ops p).
Proof.
  revert p. induction ops as [| o ops IH]; intros p Hs; [exact Hs |].
  cbn. apply IH, step_sound, Hs.
Qed.

(** C6.  Start from a process without lock objects, among other actors
    that are benign, and let it create objects, acquire, release, enter
    and leave scopes in any order and on any of its objects.  In the state
    it reaches, every locked object has its lock file on disk and its
    stored descriptor open on that file; and this is still so after any
    further operation. *)
Theorem locked_means_file_and_handle :
  forall (w0 : World) (ops : list op),
    Forall benign (env w0) ->
    lock_inv_all (run ops (start w0)) /\
    forall (o : op), lock_inv_all (step o (run ops (start w0))).
Proof.
  intros w0 ops Hb.
  assert (Hs : sound (run ops (start w0))) by (apply run_sound, sound_start, Hb).
  split; [apply sound_lock_inv, Hs |].
  intros o. apply sound_lock_inv, step_sound, Hs.
Qed.

End Invariant.

Lemma locked_means_file_and_handle_witness :
  let p := run [OpNew "/tmp/work" default_timeout default_delay; OpAcquire 0 1]
               (start Scenario.quiet) in
  objs p !! 0%nat = Some Scenario.work_held /\
  Scenario.work_lock ∈ files (os p) /\
  exists n, fd Scenario.work_held = Some n /\ fds (os p) !! n = Some Scenario.work_lock.
Proof.
  set (ops := [OpNew "/tmp/work" default_timeout default_delay; OpAcquire 0 1]).
  cbn zeta.
  destruct (locked_means_file_and_handle Scenario.quiet ops) as [Hinv _];
    [constructor |].
  assert (Hobj : objs (run ops (start Scenario.quiet)) !! 0%nat = Some Scenario.work_held)
    by (vm_compute; reflexivity).
  split; [exact Hobj |].
  exact (Hinv 0%nat Scenario.work_held Hobj eq_refl).
Defined.

(* ===================================================================== *)
(** ** Runs of the model *)
(* ===================================================================== *)

(** The holder lets go during our second sleep: the third attempt wins. *)
Example contended_then_acquired :
  let res := acquire 5 Scenario.work_brief Scenario.held_for_a_while in
  res.1.1 = Return tt /\ is_locked res.1.2 = true /\
  sleeps res.2 = 2%nat /\ opens res.2 = 3%nat.
Proof. vm_compute. repeat split; reflexivity. Qed.

(** The holder keeps the lock: two sleeps of half a second use up the
    timeout of one second. *)
Example contended_until_timeout :
  let res := acquire 5 Scenario.work_brief Scenario.held in
  res.1.1 = Raise LockTimeout /\ sleeps res.2 = 2%nat /\ opens res.2 = 3%nat.
Proof. vm_compute. repeat split; reflexivity. Qed.

(** A negative delay makes the first retry fail inside [time.sleep]. *)
Example negative_delay :
  (acquire 5 (__init__ "/tmp/work" 1 (-1 # 2)) Scenario.held).1.1 =
  Raise (ValueError "sleep length must be non-negative").
Proof. vm_compute. reflexivity. Qed.

(** [tests/test.py] in a quiet world: the run ends normally ten seconds
    later and leaves neither lock file nor open descriptor. *)
Example test_main_quiet :
  let res := Scenario.test_main "/tmp/work" 1 (start Scenario.quiet) in
  res.1 = Return tt /\
  elements (files (os res.2)) = [] /\ map_to_list (fds (os res.2)) = [] /\
  Qeq_bool (now (os res.2)) 10 = true /\
  log (os res.2) =
    ([EvUnlink "/tmp/work/work.lock"; EvClose 0] ++ replicate 10 (EvSleep 1) ++
     [EvOpen "/tmp/work/work.lock"])%list.
Proof. vm_compute. repeat split; reflexivity. Qed.

(** [tests/test.py] while another process holds the lock for good: the
    run ends with the timeout failure after ten seconds of polling. *)
Example test_main_held :
  let res := Scenario.test_main "/tmp/work" 250 (start Scenario.held) in
  res.1 = Raise LockTimeout /\ sleeps (os res.2) = 200%nat.
Proof. vm_compute. repeat split; reflexivity. Qed.

(* ===================================================================== *)
(** ** More on [acquire] *)
(* ===================================================================== *)

Lemma acquire_loop_outcome (fuel : nat) (start : Q) (self : DirLock) (w : World) :
  match (acquire_loop fuel start self w).1.1 with
  | Return _ =>
      exists n,
        (acquire_loop fuel start self w).1.2 = set_is_locked true (set_fd n self) /\
        lockfile self ∈ files (acquire_loop fuel start self w).2 /\
        fds (acquire_loop fuel start self w).2 !! n = Some (lockfile self) /\
        fault (acquire_loop fuel start self w).2 !! lockfile self = None
  | _ => (acquire_loop fuel start self w).1.2 = self
  end.
Proof.
  revert w. induction fuel as [| fuel IH]; intros w; [reflexivity |].
  rewrite acquire_loop_S.
  destruct (os_open (lockfile self) w) as [[err | n] w1] eqn:Hopen.
  - destruct (bool_decide (err = EEXIST)); [| reflexivity].
    destruct (Qeq_bool (timeout self) 0); [reflexivity |].
    destruct (Qle_bool (timeout self) _); [reflexivity |].
    destruct (Qle_bool 0 (delay self)); [apply IH | reflexivity].
  - apply os_open_inr in Hopen as (Hf & Hnot & Hn & ->). cbn.
    exists n. split; [reflexivity |]. split; [set_solver |].
    split; [apply lookup_insert_eq | exact Hf].
Qed.

(** X1.  Whatever the other actors do: when [acquire] returns, the object
    is locked, the descriptor it stored is open on its lock file, the file
    exists and its path is usable, and nothing else of the object has
    changed; when [acquire] ends in any other way, the object is exactly
    as it was, so a failed acquisition leaves it unlocked. *)
Theorem acquire_outcome :
  forall (fuel : nat) (self : DirLock) (w : World),
    match (acquire fuel self w).1.1 with
    | Return _ =>
        exists n,
          (acquire fuel self w).1.2 = set_is_locked true (set_fd n self) /\
          lockfile self ∈ files (acquire fuel self w).2 /\
          fds (acquire fuel self w).2 !! n = Some (lockfile self) /\
          fault (acquire fuel self w).2 !! lockfile self = None
    | _ => (acquire fuel self w).1.2 = self
    end.
Proof. intros fuel self w. rewrite acquire_eq. apply acquire_loop_outcome. Qed.

Lemma sleep_for_log (d : Q) (w : World) : log (sleep_for d w) = EvSleep d :: log w.
Proof.
  unfold sleep_for. cbn. destruct (env w) as [| a rest]; [reflexivity |].
  destruct a as [q | q | q [e |] | dt]; reflexivity.
Qed.

Lemma acquire_loop_log (fuel : nat) (start : Q) (self : DirLock) (w : World) :
  exists evs,
    log (acquire_loop fuel start self w).2 = (evs ++ log w)%list /\
    Forall (acquire_event self) evs /\
    ((acquire_loop fuel start self w).1.1 <> OutOfFuel ->
     length (List.filter is_open evs) = S (length (List.filter is_sleep evs))).
Proof.
  revert w. induction fuel as [| fuel IH]; intros w.
  { exists []. cbn. split; [reflexivity |]. split; [constructor | congruence]. }
  rewrite acquire_loop_S.
  assert (Hone : forall (o : outcome unit) (s : DirLock) (w1 : World),
             log w1 = EvOpen (lockfile self) :: log w ->
             exists evs,
               log (o, s, w1).2 = (evs ++ log w)%list /\
               Forall (acquire_event self) evs /\
               ((o, s, w1).1.1 <> OutOfFuel ->
                length (List.filter is_open evs) = S (length (List.filter is_sleep evs)))).
  { intros o s w1 Hlog. exists [EvOpen (lockfile self)]. cbn.
    split; [exact Hlog |]. split; [| reflexivity].
    constructor; [left; reflexivity | constructor]. }
  destruct (os_open (lockfile self) w) as [[err | n] w1] eqn:Hopen;
    apply os_open_log in Hopen; [| by apply Hone].
  destruct (bool_decide (err = EEXIST)); [| by apply Hone].
  destruct (Qeq_bool (timeout self) 0); [by apply Hone |].
  destruct (Qle_bool (timeout self) _); [by apply Hone |].
  destruct (Qle_bool 0 (delay self)); [| by apply Hone].
  destruct (IH (sleep_for (delay self) w1)) as (evs & Hlog & Hall & Hcount).
  exists (evs ++ [EvSleep (delay self); EvOpen (lockfile self)])%list.
  split; [| split].
  - rewrite Hlog, sleep_for_log, Hopen, <- app_assoc. reflexivity.
  - apply Forall_app. split; [exact Hall |].
    constructor; [right; reflexivity |]. constructor; [left; reflexivity | constructor].
  - intros Hne. specialize (Hcount Hne).
    rewrite !List.filter_app, !length_app. cbn. lia.
Qed.

(** X2.  [acquire] makes no system call other than create attempts on its
    own lock file and sleeps of its own delay: it never closes a
    descriptor, never removes a file and never touches another path.
    When it ends (by returning or by raising) it has made exactly one
    create attempt more than it has slept. *)
Theorem acquire_only_polls :
  forall (fuel : nat) (self : DirLock) (w : World),
    exists evs,
      log (acquire fuel self w).2 = (evs ++ log w)%list /\
      Forall (acquire_event self) evs /\
      ((acquire fuel self w).1.1 <> OutOfFuel ->
       length (List.filter is_open evs) = S (length (List.filter is_sleep evs))).
Proof. intros fuel self w. rewrite acquire_eq. apply acquire_loop_log. Qed.

Lemma sleep_for_quiet (d : Q) (w : World) :
  env w = [] ->
  env (sleep_for d w) = [] /\ now (sleep_for d w) = (now w + d)%Q.
Proof. intros He. unfold sleep_for. cbn. rewrite He. cbn. split; reflexivity. Qed.

Lemma acquire_loop_window (fuel : nat) (start : Q) (self s' : DirLock) (w w' : World) :
  env w = [] ->
  (now w - start < timeout self \/
   (0 <= delay self /\ now w - start < timeout self + delay self))%Q ->
  acquire_loop fuel start self w = (Raise LockTimeout, s', w') ->
  (timeout self <= now w' - start /\ now w' - start < timeout self + delay self)%Q.
Proof.
  revert w. induction fuel as [| fuel IH]; intros w He Hentry; [discriminate |].
  rewrite acquire_loop_S.
  destruct (os_open (lockfile self) w) as [[err | n] w1] eqn:Hopen; [| discriminate].
  apply os_open_fail in Hopen. subst w1. cbn [now record].
  destruct (bool_decide (err = EEXIST)); [| discriminate].
  destruct (Qeq_bool (timeout self) 0).
  { unfold LockUnavailable, LockTimeout. cbn. intros [=]. }
  destruct (Qle_bool (timeout self) (now w - start)) eqn:Hle.
  - intros [= <- <-]. apply Qle_bool_iff in Hle. cbn. lra.
  - assert (Hlt : (now w - start < timeout self)%Q).
    { apply Qnot_le_lt. intros Hc. apply Qle_bool_iff in Hc. congruence. }
    destruct (Qle_bool 0 (delay self)) eqn:Hd; [| discriminate].
    apply Qle_bool_iff in Hd.
    destruct (sleep_for_quiet (delay self) (record (EvOpen (lockfile self)) w) He)
      as [He' Hnow].
    apply IH; [exact He' |]. right. rewrite Hnow. cbn. split; [exact Hd | lra].
Qed.

Lemma acquire_loop_not_early (fuel : nat) (start : Q) (self s' : DirLock) (w w' : World) :
  acquire_loop fuel start self w = (Raise LockTimeout, s', w') ->
  (timeout self <= now w' - start)%Q.
Proof.
  revert w. induction fuel as [| fuel IH]; intros w; [discriminate |].
  rewrite acquire_loop_S.
  destruct (os_open (lockfile self) w) as [[err | n] w1] eqn:Hopen; [| discriminate].
  destruct (bool_decide (err = EEXIST)); [| discriminate].
  destruct (Qeq_bool (timeout self) 0).
  { unfold LockUnavailable, LockTimeout. cbn. intros [=]. }
  destruct (Qle_bool (timeout self) (now w1 - start)) eqn:Hle.
  - intros [= <- <-]. apply Qle_bool_iff. exact Hle.
  - destruct (Qle_bool 0 (delay self)); [apply IH | discriminate].
Qed.

(** X3.  A timeout failure never comes early: whatever the other actors
    do, when [acquire] ends with the "timeout" failure, the time elapsed
    between its first and its last reading of the clock is at least the
    timeout.  If moreover nobody else acts, so that time passes only while
    the call sleeps, and the timeout and the retry delay are positive, the
    elapsed time is less than the timeout plus one retry delay. *)
Theorem timeout_failure_window :
  forall (fuel : nat) (self s' : DirLock) (w w' : World),
    acquire fuel self w = (Raise LockTimeout, s', w') ->
    (timeout self <= now w' - now w)%Q /\
    (env w = [] ->
     (0 < timeout self)%Q ->
     (0 < delay self)%Q ->
     (now w' - now w < timeout self + delay self)%Q).
Proof.
  intros fuel self s' w w' Hacq. rewrite acquire_eq in Hacq. split.
  - eapply acquire_loop_not_early. exact Hacq.
  - intros He Hpos _.
    eapply acquire_loop_window; [exact He | | exact Hacq].
    left. lra.
Qed.

Lemma timeout_failure_window_witness :
  exists w',
    acquire 5 Scenario.work_brief Scenario.held =
      (Raise LockTimeout, Scenario.work_brief, w') /\
    (1 <= now w' - 0 /\ now w' - 0 < 1 + (1 # 2))%Q.
Proof.
  eexists. split; [vm_compute; reflexivity |].
  destruct (timeout_failure_window 5 Scenario.work_brief Scenario.work_brief Scenario.held
              (acquire 5 Scenario.work_brief Scenario.held).2) as [Hlo Hhi].
  - vm_compute. reflexivity.
  - split; [exact Hlo |]. apply Hhi; reflexivity.
Defined.

Lemma polled_sleeps (j : nat) (self : DirLock) (w : World) :
  sleeps (polled j self w) = (j + sleeps w)%nat.
Proof.
  revert w. induction j as [| j IH]; intros w; [reflexivity |].
  cbn [polled]. rewrite IH. unfold sleeps. rewrite sleep_for_log. cbn. lia.
Qed.

Lemma acquire_loop_first_free (j : nat) :
  forall (fuel : nat) (start : Q) (self : DirLock) (w : World),
    ~ (timeout self == 0)%Q ->
    (0 <= delay self)%Q ->
    (forall i, (i < j)%nat ->
               lockfile self ∈ files (polled i self w) /\
               fault (polled i self w) !! lockfile self = None /\
               (now (polled i self w) - start < timeout self)%Q) ->
    lockfile self ∉ files (polled j self w) ->
    fault (polled j self w) !! lockfile self = None ->
    acquire_loop (S j + fuel) start self w =
    (Return tt,
     set_is_locked true (set_fd (fresh (dom (fds (polled j self w)))) self),
     (os_open (lockfile self) (polled j self w)).2).
Proof.
  induction j as [| j IH]; intros fuel start self w Hnz Hd Hbusy Hfree Hf.
  - cbn [polled plus] in *. rewrite acquire_loop_S, os_open_ok by assumption. reflexivity.
  - destruct (Hbusy 0%nat ltac:(lia)) as (Hin & Hf0 & Hel). cbn [polled] in Hin, Hf0, Hel.
    change (S (S j) + fuel)%nat with (S (S j + fuel)).
    rewrite acquire_loop_S, os_open_exists by assumption.
    rewrite bool_decide_eq_true_2 by reflexivity.
    destruct (Qeq_bool (timeout self) 0) eqn:Hq;
      [apply Qeq_bool_iff in Hq; contradiction |].
    cbn [now record].
    destruct (Qle_bool (timeout self) (now w - start)) eqn:Hle.
    { apply Qle_bool_iff in Hle. lra. }
    apply Qle_bool_iff in Hd. rewrite Hd.
    cbn [polled]. apply IH; try assumption.
    + apply Qle_bool_iff. exact Hd.
    + intros i Hi. apply (Hbusy (S i)). lia.
Qed.

(** X4.  [acquire] wins at the first poll that finds the lock file gone.
    If the file is there at each of the first [j] create attempts, each
    made before the timeout has elapsed, and is gone (with a usable path)
    at the next attempt, the call returns at that attempt, after exactly
    [j] sleeps, however long the timeout still had to run. *)
Theorem acquire_wins_at_first_free_poll :
  forall (j fuel : nat) (self : DirLock) (w : World),
    ~ (timeout self == 0)%Q ->
    (0 <= delay self)%Q ->
    (forall i, (i < j)%nat ->
               lockfile self ∈ files (polled i self w) /\
               fault (polled i self w) !! lockfile self = None /\
               (now (polled i self w) - now w < timeout self)%Q) ->
    lockfile self ∉ files (polled j self w) ->
    fault (polled j self w) !! lockfile self = None ->
    exists (n : nat) (w' : World),
      acquire (S j + fuel) self w = (Return tt, set_is_locked true (set_fd n self), w') /\
      os_open (lockfile self) (polled j self w) = (inr n, w') /\
      sleeps w' = (j + sleeps w)%nat.
Proof.
  intros j fuel self w Hnz Hd Hbusy Hfree Hf.
  eexists _, _. split; [| split].
  - rewrite acquire_eq. apply acquire_loop_first_free; assumption.
  - rewrite os_open_ok by assumption. reflexivity.
  - rewrite os_open_ok by assumption. unfold sleeps at 1. cbn.
    apply polled_sleeps.
Qed.

Lemma acquire_wins_at_first_free_poll_witness :
  exists (n : nat) (w' : World),
    acquire 3 Scenario.work_brief Scenario.held_for_a_while =
      (Return tt, set_is_locked true (set_fd n Scenario.work_brief), w') /\
    sleeps w' = 2%nat.
Proof.
  destruct (acquire_wins_at_first_free_poll 2 0 Scenario.work_brief
              Scenario.held_for_a_while) as (n & w' & Hacq & _ & Hsl).
  - vm_compute. discriminate.
  - vm_compute. discriminate.
  - intros i Hi. destruct i as [| [| i]]; [| | lia].
    + split; [| split; reflexivity].
      change (Scenario.work_lock ∈ ({[Scenario.work_lock]} : gset string)).
      apply elem_of_singleton_2. reflexivity.
    + split; [| split; reflexivity].
      change (Scenario.work_lock ∈ ({[Scenario.work_lock]} : gset string)).
      apply elem_of_singleton_2. reflexivity.
  - change (Scenario.work_lock ∉ ({[Scenario.work_lock]} ∖ {[Scenario.work_lock]}
                                   : gset string)).
    intros Hin. apply elem_of_difference in Hin as [_ Hnot].
    apply Hnot, elem_of_singleton_2. reflexivity.
  - reflexivity.
  - exists n, w'. split; [exact Hacq | exact Hsl].
Defined.

(* ===================================================================== *)
(** ** More on [release] *)
(* ===================================================================== *)

(** X5.  [release] keeps to its own lock: it removes no file other than
    its lock file and creates none, closes no descriptor other than the
    one stored in the object, leaves the clock, the other actors and the
    faults alone, and changes nothing of the object but [is_locked]. *)
Theorem release_footprint :
  forall (self : DirLock) (w : World),
    (forall q, q <> lockfile self ->
               (q ∈ files (release self w).2 <-> q ∈ files w)) /\
    (lockfile self ∈ files (release self w).2 -> lockfile self ∈ files w) /\
    (forall m, fd self <> Some m -> fds (release self w).2 !! m = fds w !! m) /\
    now (release self w).2 = now w /\
    env (release self w).2 = env w /\
    fault (release self w).2 = fault w /\
    fd (release self w).1.2 = fd self /\
    same_config self (release self w).1.2.
Proof.
  intros self w. rewrite release_eq.
  destruct (is_locked self); [| cbn; repeat split; auto].
  destruct (fd self) as [n |] eqn:Hfd; [| cbn; repeat split; auto; congruence].
  unfold os_close. cbn. destruct (fds w !! n) as [path |] eqn:Hn.
  2:{ cbn. repeat split; auto. }
  unfold os_unlink. cbn.
  assert (Hother : forall m, Some n <> Some m -> delete n (fds w) !! m = fds w !! m).
  { intros m Hm. apply lookup_delete_ne. congruence. }
  destruct (fault w !! lockfile self).
  { cbn. repeat split; auto. }
  destruct (decide (lockfile self ∈ files w)); cbn; repeat split; auto;
    try set_solver.
Qed.

(** X6.  A [release] that fails while removing the file is not
    repeatable.  For a locked object whose descriptor is open, if
    [os.unlink] on the lock file fails (the file is gone, or the path has
    become unusable), [release] raises that [OSError] after having closed
    the descriptor and without clearing [is_locked]; every later
    [release] of the object then fails with [EBADF] on the closed
    descriptor, before it gets to the file. *)
Theorem failed_unlink_leaves_lock_stuck :
  forall (self : DirLock) (w : World) (n : nat) (path : string) (e : errno),
    is_locked self = true ->
    fd self = Some n ->
    fds w !! n = Some path ->
    (os_unlink (lockfile self) w).1 = inl e ->
    exists w1 w2,
      release self w = (Raise (OSError e), self, w1) /\
      fds w1 !! n = None /\
      release self w1 = (Raise (OSError EBADF), self, w2) /\
      files w2 = files w /\
      log w2 = EvClose n :: EvUnlink (lockfile self) :: EvClose n :: log w.
Proof.
  intros self w n path e Hl Hfd Hn Hun.
  set (w1 := mkWorld (files w) (delete n (fds w)) (fault w) (now w) (env w)
                     (EvUnlink (lockfile self) :: EvClose n :: log w)).
  assert (H1 : release self w = (Raise (OSError e), self, w1)).
  { rewrite release_eq, Hl, Hfd. unfold os_close. cbn. rewrite Hn.
    unfold os_unlink in *. cbn in *.
    destruct (fault w !! lockfile self) as [e' |].
    - cbn in Hun. injection Hun as ->. reflexivity.
    - destruct (decide (lockfile self ∈ files w)); [discriminate |].
      cbn in Hun. injection Hun as <-. reflexivity. }
  assert (Hclosed : fds w1 !! n = None) by apply lookup_delete_eq.
  exists w1, (record (EvClose n) w1).
  split; [exact H1 |]. split; [exact Hclosed |]. split; [| split; reflexivity].
  rewrite release_eq, Hl, Hfd. unfold os_close.
  change (fds (record (EvClose n) w1)) with (fds w1). rewrite Hclosed. reflexivity.
Qed.

Lemma failed_unlink_leaves_lock_stuck_witness :
  exists w1 w2,
    release Scenario.work_held Scenario.orphaned =
      (Raise (OSError ENOENT), Scenario.work_held, w1) /\
    release Scenario.work_held w1 = (Raise (OSError EBADF), Scenario.work_held, w2).
Proof.
  destruct (failed_unlink_leaves_lock_stuck Scenario.work_held Scenario.orphaned
              0%nat Scenario.work_lock ENOENT)
    as (w1 & w2 & H1 & _ & H2 & _).
  - reflexivity.
  - reflexivity.
  - reflexivity.
  - vm_compute. reflexivity.
  - exists w1, w2. split; [exact H1 | exact H2].
Defined.

(* ===================================================================== *)
(** ** More on scopes, destruction and several objects *)
(* ===================================================================== *)

Section Exclusion.
Context {os_path : OsPath}.

(** X7.  Mutual exclusion inside one process.  After any sequence of
    constructions, acquisitions, releases, scope entries and scope exits,
    among other actors that are benign, two distinct objects with the
    same lock file are never both locked. *)
Theorem locks_exclude_each_other :
  forall (w0 : World) (ops : list op) (r1 r2 : ref) (s1 s2 : DirLock),
    Forall benign (env w0) ->
    r1 <> r2 ->
    objs (run ops (start w0)) !! r1 = Some s1 ->
    objs (run ops (start w0)) !! r2 = Some s2 ->
    lockfile s1 = lockfile s2 ->
    is_locked s1 = false \/ is_locked s2 = false.
Proof.
  intros w0 ops r1 r2 s1 s2 Hb Hne H1 H2 Hsame.
  destruct (run_sound ops (start w0) (sound_start w0 Hb)) as (_ & _ & Hdist).
  destruct (is_locked s1) eqn:Hl1; [| left; reflexivity].
  destruct (is_locked s2) eqn:Hl2; [| right; reflexivity].
  exfalso. exact (Hdist r1 r2 s1 s2 Hne H1 H2 Hl1 Hl2 Hsame).
Qed.

End Exclusion.

Lemma locks_exclude_each_other_witness :
  let ops := [OpNew "/tmp/work" 0 default_delay; OpNew "/tmp/work" 0 default_delay;
              OpAcquire 0 1; OpAcquire 1 1] in
  objs (run ops (start Scenario.quiet)) !! 0%nat = Some (set_is_locked true (set_fd 0 Scenario.work_now)) /\
  (is_locked (set_is_locked true (set_fd 0 Scenario.work_now)) = false \/
   is_locked Scenario.work_now = false).
Proof.
  cbn zeta. split; [vm_compute; reflexivity |].
  apply (locks_exclude_each_other Scenario.quiet
           [OpNew "/tmp/work" 0 default_delay; OpNew "/tmp/work" 0 default_delay;
            OpAcquire 0 1; OpAcquire 1 1] 0%nat 1%nat).
  - constructor.
  - lia.
  - vm_compute. reflexivity.
  - vm_compute. reflexivity.
  - reflexivity.
Defined.

(** X8.  Destruction releases.  When a locked object whose descriptor is
    open on its existing, removable lock file is destroyed, [__del__]
    removes the file, closes the descriptor and clears [is_locked], and
    the destruction ends normally; destroying an unlocked object changes
    nothing at all. *)
Theorem finalize_releases :
  forall (r : ref) (p : Proc) (self : DirLock),
    objs p !! r = Some self ->
    (is_locked self = true ->
     lock_inv self (os p) ->
     fault (os p) !! lockfile self = None ->
     exists p',
       finalize r p = (Return tt, p') /\
       objs p' !! r = Some (set_is_locked false self) /\
       (lockfile self ∉ files (os p')) /\
       (forall n, fd self = Some n -> fds (os p') !! n = None)) /\
    (is_locked self = false -> finalize r p = (Return tt, p)).
Proof.
  intros r p self Hr. split.
  - intros Hl Hinv Hf. destruct (Hinv Hl) as (Hin & n & Hfd & Hn).
    unfold finalize, call, __del__. rewrite Hr.
    rewrite (release_held self (os p) n (lockfile self)) by assumption.
    eexists. split; [reflexivity |]. cbn.
    split; [apply list_lookup_insert_eq; eapply lookup_lt_Some; eassumption |].
    split; [set_solver |].
    intros m Hm. rewrite Hfd in Hm. injection Hm as <-. apply lookup_delete_eq.
  - intros Hl. unfold finalize, call, __del__. rewrite Hr.
    rewrite release_when_unlocked by exact Hl. rewrite sound_same by exact Hr.
    reflexivity.
Qed.

Lemma finalize_releases_witness :
  exists p',
    finalize 0 (mkProc [Scenario.work_held] Scenario.ours) = (Return tt, p') /\
    objs p' !! 0%nat = Some (set_is_locked false Scenario.work_held) /\
    Scenario.work_lock ∉ files (os p').
Proof.
  destruct (finalize_releases 0%nat (mkProc [Scenario.work_held] Scenario.ours)
              Scenario.work_held) as [Hheld _]; [reflexivity |].
  destruct Hheld as (p' & Hfin & Hobj & Hgone & _).
  - reflexivity.
  - intros _. split.
    + change (Scenario.work_lock ∈ ({[Scenario.work_lock]} : gset string)).
      apply elem_of_singleton_2. reflexivity.
    + exists 0%nat. split; reflexivity.
  - reflexivity.
  - exists p'. split; [exact Hfin |]. split; [exact Hobj | exact Hgone].
Defined.

(** X9.  No lock, no block.  If [acquire] fails on entering a scope with
    an unlocked object, the [with] statement ends with that very failure:
    the block does not run, [__exit__] is not called, and the heap of
    objects is as before; the world is the one [acquire] left. *)
Theorem with_needs_the_lock :
  forall (mgr : ref) (fuel : nat) (body : ref -> P unit) (p : Proc)
         (self s' : DirLock) (w' : World) (e : exn),
    objs p !! mgr = Some self ->
    is_locked self = false ->
    acquire fuel self (os p) = (Raise e, s', w') ->
    with_stmt mgr fuel body p = (Raise e, mkProc (objs p) w').
Proof.
  intros mgr fuel body p self s' w' e Hr Hl Hacq.
  pose proof (acquire_loop_outcome fuel (now (os p)) self (os p)) as Hout.
  rewrite <- acquire_eq, Hacq in Hout. cbn in Hout. subst s'.
  unfold with_stmt, call. rewrite Hr, enter_eq, Hl, Hacq.
  rewrite list_insert_id by exact Hr. reflexivity.
Qed.

Lemma with_needs_the_lock_witness :
  exists w',
    with_stmt 0 1 (Scenario.someone_removes Scenario.work_lock)
      (mkProc [Scenario.work_now] Scenario.held) =
    (Raise (LockUnavailable Scenario.work_now), mkProc [Scenario.work_now] w') /\
    files w' = files Scenario.held.
Proof.
  eexists. split.
  - apply (with_needs_the_lock 0%nat 1%nat _ (mkProc [Scenario.work_now] Scenario.held)
             Scenario.work_now Scenario.work_now).
    + reflexivity.
    + reflexivity.
    + vm_compute. reflexivity.
  - reflexivity.
Defined.

(** X10.  Scopes on one object do not nest.  Entering a scope with an
    object that is already locked acquires nothing, and leaving that
    scope releases the lock all the same: if at the end of the block the
    object still holds its lock, then after the [with] statement the file
    is gone and the object is unlocked, although it was locked before. *)
Theorem scopes_do_not_nest :
  forall (mgr : ref) (fuel : nat) (body : ref -> P unit) (p p2 : Proc)
         (self s2 : DirLock),
    objs p !! mgr = Some self ->
    is_locked self = true ->
    body mgr p = (Return tt, p2) ->
    objs p2 !! mgr = Some s2 ->
    is_locked s2 = true ->
    lock_inv s2 (os p2) ->
    fault (os p2) !! lockfile s2 = None ->
    exists p3,
      with_stmt mgr fuel body p = (Return tt, p3) /\
      objs p3 !! mgr = Some (set_is_locked false s2) /\
      lockfile s2 ∉ files (os p3).
Proof.
  intros mgr fuel body p p2 self s2 Hr Hl Hbody Hr2 Hl2 Hinv Hf.
  unfold with_stmt. unfold call at 1. rewrite Hr, enter_eq, Hl.
  rewrite sound_same by exact Hr. rewrite Hbody.
  destruct (exit_clean None s2 (os p2) Hinv Hf) as (w' & Hex & Hgone).
  unfold call. rewrite Hr2, Hex. eexists. split; [reflexivity |]. cbn.
  split; [apply list_lookup_insert_eq; eapply lookup_lt_Some; eassumption |].
  apply Hgone, Hl2.
Qed.

Lemma scopes_do_not_nest_witness :
  exists p3,
    with_stmt 0 1 (fun _ q => (Return tt, q)) (mkProc [Scenario.work_held] Scenario.ours) =
      (Return tt, p3) /\
    objs p3 !! 0%nat = Some (set_is_locked false Scenario.work_held) /\
    Scenario.work_lock ∉ files (os p3).
Proof.
  apply (scopes_do_not_nest 0%nat 1%nat (fun _ q => (Return tt, q))
           (mkProc [Scenario.work_held] Scenario.ours)
           (mkProc [Scenario.work_held] Scenario.ours)
           Scenario.work_held Scenario.work_held).
  - reflexivity.
  - reflexivity.
  - reflexivity.
  - reflexivity.
  - reflexivity.
  - intros _. split.
    + change (Scenario.work_lock ∈ ({[Scenario.work_lock]} : gset string)).
      apply elem_of_singleton_2. reflexivity.
    + exists 0%nat. split; reflexivity.
  - reflexivity.
Defined.

(* ===================================================================== *)
(** ** More on the lock file path *)
(* ===================================================================== *)

Lemma append_cons (c : Ascii.ascii) (a b : string) :
  String c a ++ b = String c (a ++ b).
Proof. reflexivity. Qed.

Lemma append_assoc_s (a b c : string) : (a ++ b) ++ c = a ++ (b ++ c).
Proof.
  induction a as [| x a IH]; [reflexivity |].
  rewrite !append_cons, IH. reflexivity.
Qed.

Lemma append_cancel_l (a x y : string) : a ++ x = a ++ y -> x = y.
Proof.
  induction a as [| c a IH]; [auto |].
  rewrite !append_cons. intros [= H]. auto.
Qed.

Lemma length_append_s (a b : string) :
  String.length (a ++ b) = (String.length a + String.length b)%nat.
Proof.
  induction a as [| c a IH]; [reflexivity |].
  rewrite append_cons. cbn. rewrite IH. reflexivity.
Qed.

Lemma cut_at_last_sep_trailing (d : string) :
  PosixPath.cut_at_last_sep (d ++ "/") = (d ++ "/", EmptyString).
Proof.
  induction d as [| c r IH]; [reflexivity |].
  rewrite append_cons. cbn [PosixPath.cut_at_last_sep]. rewrite IH.
  destruct r; reflexivity.
Qed.

Lemma ends_with_sep_trailing (d : string) : PosixPath.ends_with_sep (d ++ "/") = true.
Proof.
  induction d as [| c r IH]; [reflexivity |].
  rewrite append_cons. destruct r; [reflexivity |].
  rewrite append_cons in *. exact IH.
Qed.

(** Only a path that is empty or ends with a separator has an empty last
    component. *)
Lemma cut_at_last_sep_tail_empty (p : string) :
  (PosixPath.cut_at_last_sep p).2 = EmptyString ->
  p = EmptyString \/ PosixPath.ends_with_sep p = true.
Proof.
  induction p as [| c r IH]; [auto |].
  cbn [PosixPath.cut_at_last_sep].
  pose proof (cut_at_last_sep_tail r) as [_ Hwhole].
  destruct (PosixPath.cut_at_last_sep r) as [h t] eqn:Hcut. cbn in IH, Hwhole.
  destruct h as [| c' h'].
  - specialize (Hwhole eq_refl). subst t.
    destruct (PosixPath.is_sep c) eqn:Hc; cbn; [| discriminate].
    intros ->. right. cbn. exact Hc.
  - cbn. intros Ht. destruct (IH Ht) as [-> | Hend]; [discriminate |].
    right. cbn. destruct r; [discriminate | exact Hend].
Qed.

(** X11.  On POSIX the lock file depends on how the directory is spelled.
    For a non-empty directory written without a trailing separator the
    lock file is [<directory>/<last component>.lock], the last component
    being non-empty and free of separators; for the same directory written
    with a trailing separator it is [<directory>/.lock].  The two
    spellings therefore never name the same lock file. *)
Theorem lockfile_depends_on_spelling :
  forall (d : string) (t dl : Q),
    d <> EmptyString ->
    PosixPath.ends_with_sep d = false ->
    (PosixPath.split d).2 <> EmptyString /\
    PosixPath.has_sep (PosixPath.split d).2 = false /\
    lockfile (@__init__ posixpath d t dl) = d ++ "/" ++ (PosixPath.split d).2 ++ ".lock" /\
    lockfile (@__init__ posixpath (d ++ "/") t dl) = d ++ "/.lock" /\
    lockfile (@__init__ posixpath d t dl) <> lockfile (@__init__ posixpath (d ++ "/") t dl).
Proof.
  intros d t dl Hne Hend.
  assert (Hbase : (PosixPath.split d).2 <> EmptyString).
  { unfold PosixPath.split.
    pose proof (cut_at_last_sep_tail_empty d) as Hempty.
    destruct (PosixPath.cut_at_last_sep d) as [h tl]. cbn in *.
    intros Htl. destruct (Hempty Htl) as [Hd | Hd]; congruence. }
  assert (Hnosep : PosixPath.has_sep (PosixPath.split d).2 = false).
  { unfold PosixPath.split.
    pose proof (cut_at_last_sep_tail d) as [Hs _].
    destruct (PosixPath.cut_at_last_sep d) as [h tl]. exact Hs. }
  assert (Hplain := posix_lockfile_shape d t dl Hne Hend).
  assert (Htrail : lockfile (@__init__ posixpath (d ++ "/") t dl) = d ++ "/.lock").
  { cbn. unfold PosixPath.split. rewrite cut_at_last_sep_trailing. cbn.
    unfold PosixPath.join. cbn.
    rewrite ends_with_sep_trailing.
    destruct (d ++ "/") eqn:Hd; [destruct d; discriminate |].
    rewrite <- Hd. apply append_assoc_s. }
  split; [exact Hbase |]. split; [exact Hnosep |]. split; [exact Hplain |].
  split; [exact Htrail |].
  rewrite Hplain, Htrail. intros Heq.
  apply append_cancel_l in Heq. rewrite append_cons in Heq. injection Heq as Heq.
  change (EmptyString ++ ?x) with x in Heq.
  pose proof (f_equal String.length Heq) as Hlen.
  rewrite length_append_s in Hlen.
  change (String.length ".lock") with 5%nat in Hlen.
  destruct (PosixPath.split d).2 as [| c b]; [congruence |].
  cbn [String.length] in Hlen. lia.
Qed.

Lemma lockfile_depends_on_spelling_witness :
  lockfile (@__init__ posixpath "/tmp/work" 0 0) = "/tmp/work/work.lock" /\
  lockfile (@__init__ posixpath "/tmp/work/" 0 0) = "/tmp/work/.lock".
Proof.
  destruct (lockfile_depends_on_spelling "/tmp/work" 0 0) as (_ & _ & Hplain & Htrail & _).
  - discriminate.
  - reflexivity.
  - split; [exact Hplain | exact Htrail].
Defined.

(* ===================================================================== *)
(** ** The test program *)
(* ===================================================================== *)

Lemma insert_last {A} (l : list A) (x y : A) :
  <[length l := y]> (l ++ [x])%list = (l ++ [y])%list.
Proof.
  replace (length l) with (length l + 0)%nat by lia.
  rewrite insert_app_r. reflexivity.
Qed.

(** The block of the test program when nobody else acts: [times] seconds
    pass and nothing else changes. *)
Lemma print_and_sleep_quiet (times : nat) (p : Proc) :
  env (os p) = [] ->
  exists w',
    Scenario.print_and_sleep times p = (Return tt, mkProc (objs p) w') /\
    files w' = files (os p) /\ fds w' = fds (os p) /\ fault w' = fault (os p) /\
    env w' = [] /\
    (now w' == now (os p) + inject_Z (Z.of_nat times))%Q /\
    sleeps w' = (times + sleeps (os p))%nat.
Proof.
  revert p. induction times as [| times IH]; intros p He.
  { exists (os p). destruct p. cbn in *. repeat split; auto.
    change (inject_Z (Z.of_nat 0)) with 0%Q. ring. }
  cbn [Scenario.print_and_sleep].
  destruct (sleep_for_quiet 1 (os p) He) as [He' Hnow].
  destruct (IH (mkProc (objs p) (sleep_for 1 (os p))) He')
    as (w' & Hrun & Hfiles & Hfds & Hfault & Henv & Ht & Hsl).
  cbn [objs os] in *.
  exists w'. split; [exact Hrun |].
  assert (Hkeep : files (sleep_for 1 (os p)) = files (os p) /\
                  fds (sleep_for 1 (os p)) = fds (os p) /\
                  fault (sleep_for 1 (os p)) = fault (os p)).
  { unfold sleep_for. cbn. rewrite He. cbn. repeat split. }
  destruct Hkeep as (Hk1 & Hk2 & Hk3).
  split; [congruence |]. split; [congruence |]. split; [congruence |].
  split; [exact Henv |]. split.
  - rewrite Ht, Hnow, Nat2Z.inj_succ. unfold Z.succ. rewrite inject_Z_plus.
    change (inject_Z 1) with 1%Q. ring.
  - rewrite Hsl. unfold sleeps. rewrite sleep_for_log. cbn. lia.
Qed.

(** A method call on the object created last. *)
Lemma call_last {A} (m : M A) (l : list DirLock) (x : DirLock) (w : World) :
  call (length l) m (mkProc (l ++ [x])%list w) =
  ((m x w).1.1, mkProc (l ++ [(m x w).1.2])%list (m x w).2).
Proof.
  unfold call. cbn [objs os]. rewrite list_lookup_middle by reflexivity.
  destruct (m x w) as [[o s'] w']. rewrite insert_last. reflexivity.
Qed.

(** X12.  The test program alone on its directory.  If the lock file of
    [mydir] does not exist, its path is usable and nobody else acts, then
    [main] ends normally: it has created one object, which is left
    unlocked; it has slept ten times, ten seconds have passed; and the
    files and the open descriptors are exactly those it started with, so
    no lock file is left behind. *)
Theorem test_main_alone :
  forall (mydir : string) (fuel : nat) (p : Proc),
    env (os p) = [] ->
    lockfile (__init__ mydir default_timeout default_delay) ∉ files (os p) ->
    fault (os p) !! lockfile (__init__ mydir default_timeout default_delay) = None ->
    exists (n : nat) (w' : World),
      Scenario.test_main mydir (S fuel) p =
        (Return tt,
         mkProc (objs p ++
                 [set_is_locked false
                    (set_fd n (__init__ mydir default_timeout default_delay))])%list
                w') /\
      files w' = files (os p) /\
      fds w' = fds (os p) /\
      (now w' == now (os p) + 10)%Q /\
      sleeps w' = (10 + sleeps (os p))%nat.
Proof.
  intros mydir fuel p He Hfree Hf.
  unfold Scenario.test_main, new. cbn beta iota.
  assert (Hunl : is_locked (__init__ mydir default_timeout default_delay) = false)
    by reflexivity.
  remember (__init__ mydir default_timeout default_delay) as self eqn:Eself.
  clear Eself.
  assert (Hn : fds (os p) !! fresh (dom (fds (os p))) = None)
    by (apply not_elem_of_dom, is_fresh).
  remember (fresh (dom (fds (os p)))) as n eqn:En.
  (* entering the scope *)
  assert (Henter :
            @call ref (length (objs p)) (@__enter__ ref (length (objs p)) (S fuel))
                 (mkProc (objs p ++ [self])%list (os p)) =
            (@Return ref (length (objs p)),
             mkProc (objs p ++ [set_is_locked true (set_fd n self)])%list
                    (mkWorld ({[lockfile self]} ∪ files (os p))
                             (<[n := lockfile self]> (fds (os p)))
                             (fault (os p)) (now (os p)) (env (os p))
                             (EvOpen (lockfile self) :: log (os p))))).
  { rewrite call_last, enter_eq, Hunl, acquire_free by assumption.
    rewrite <- En. reflexivity. }
  (* the block *)
  destruct (print_and_sleep_quiet 10
              (mkProc (objs p ++ [set_is_locked true (set_fd n self)])%list
                      (mkWorld ({[lockfile self]} ∪ files (os p))
                               (<[n := lockfile self]> (fds (os p)))
                               (fault (os p)) (now (os p)) (env (os p))
                               (EvOpen (lockfile self) :: log (os p)))) He)
    as (w2 & Hrun & Hfiles & Hfds & Hfault & Henv & Ht & Hsl).
  cbn [objs os files fds fault now] in Hrun, Hfiles, Hfds, Hfault, Ht.
  assert (Hsl' : sleeps w2 = (10 + sleeps (os p))%nat) by exact Hsl.
  clear Hsl.
  (* leaving the scope *)
  assert (Hrel :
            release (set_is_locked true (set_fd n self)) w2 =
            (Return tt, set_is_locked false (set_fd n self),
             mkWorld (files w2 ∖ {[lockfile self]}) (delete n (fds w2)) (fault w2)
                     (now w2) (env w2)
                     (EvUnlink (lockfile self) :: EvClose n :: log w2))).
  { apply (release_held (set_is_locked true (set_fd n self)) w2 n (lockfile self)).
    - reflexivity.
    - reflexivity.
    - rewrite Hfds. apply lookup_insert_eq.
    - cbn [lockfile set_is_locked set_fd]. rewrite Hfiles. clear. set_solver.
    - cbn [lockfile set_is_locked set_fd]. rewrite Hfault. exact Hf. }
  assert (Hexit :
            call (length (objs p)) (__exit__ None)
                 (mkProc (objs p ++ [set_is_locked true (set_fd n self)])%list w2) =
            (Return PyNone,
             mkProc (objs p ++ [set_is_locked false (set_fd n self)])%list
                    (mkWorld (files w2 ∖ {[lockfile self]}) (delete n (fds w2))
                             (fault w2) (now w2) (env w2)
                             (EvUnlink (lockfile self) :: EvClose n :: log w2)))).
  { rewrite call_last, exit_eq. cbn [is_locked set_is_locked]. rewrite Hrel.
    reflexivity. }
  (* destruction of the temporary *)
  assert (Hfin : forall w,
            finalize (length (objs p))
                     (mkProc (objs p ++ [set_is_locked false (set_fd n self)])%list w) =
            (Return tt, mkProc (objs p ++ [set_is_locked false (set_fd n self)])%list w)).
  { intros w. unfold finalize, __del__.
    rewrite call_last, release_when_unlocked by reflexivity. reflexivity. }
  exists n. eexists.
  unfold with_stmt. rewrite Henter, Hrun, Hexit, Hfin. cbn beta iota.
  split; [reflexivity |]. cbn [files fds now].
  split; [| split; [| split]].
  - rewrite Hfiles. clear -Hfree. set_solver.
  - rewrite Hfds. apply delete_insert_id. exact Hn.
  - rewrite Ht. change (inject_Z (Z.of_nat 10)) with 10%Q. apply Qeq_refl.
  - exact Hsl'.
Qed.

Lemma test_main_alone_witness :
  exists (n : nat) (w' : World),
    Scenario.test_main "/tmp/work" 1 (start Scenario.quiet) =
      (Return tt, mkProc [set_is_locked false (set_fd n Scenario.work)] w') /\
    files w' = files Scenario.quiet.
Proof.
  destruct (test_main_alone "/tmp/work" 0 (start Scenario.quiet))
    as (n & w' & Hrun & Hfiles & _).
  - reflexivity.
  - apply not_elem_of_empty.
  - reflexivity.
  - exists n, w'. split; [exact Hrun | exact Hfiles].
Defined.

(** When nobody else acts, an [acquire] that does not succeed leaves the
    files, the descriptors and the faults as they were. *)
Lemma acquire_loop_quiet (fuel : nat) (start : Q) (self s' : DirLock) (w w' : World)
      (o : outcome unit) :
  env w = [] ->
  acquire_loop fuel start self w = (o, s', w') ->
  (forall v, o <> Return v) ->
  files w' = files w /\ fds w' = fds w /\ fault w' = fault w /\ env w' = [].
Proof.
  revert w. induction fuel as [| fuel IH]; intros w He.
  { cbn. intros [= <- <- <-] _. auto. }
  rewrite acquire_loop_S.
  destruct (os_open (lockfile self) w) as [[err | n] w1] eqn:Hopen.
  2:{ intros [= <- <- <-] Hne. exfalso. exact (Hne tt eq_refl). }
  apply os_open_fail in Hopen. subst w1.
  destruct (bool_decide (err = EEXIST)); [| intros [= <- <- <-] _; cbn; auto].
  destruct (Qeq_bool (timeout self) 0); [intros [= <- <- <-] _; cbn; auto |].
  destruct (Qle_bool (timeout self) _); [intros [= <- <- <-] _; cbn; auto |].
  destruct (Qle_bool 0 (delay self)); [| intros [= <- <- <-] _; cbn; auto].
  intros Hloop Hne.
  destruct (sleep_for_quiet (delay self) (record (EvOpen (lockfile self)) w) He)
    as [He' _].
  destruct (IH _ He' Hloop Hne) as (H1 & H2 & H3 & H4).
  unfold sleep_for in H1, H2, H3. cbn in H1, H2, H3. rewrite He in H1, H2, H3.
  cbn in H1, H2, H3. auto.
Qed.

(** X13.  The test program against a lock that is never released.  If
    the lock file of [mydir] exists, its path is usable and nobody else
    acts, then [main], given the 201 create attempts that the default
    timeout and delay allow, ends with the "timeout" failure: its block
    has not run, between ten seconds and ten seconds plus one delay have
    passed, and the files (the other holder's lock file among them) and
    the open descriptors are untouched. *)
Theorem test_main_contended :
  forall (mydir : string) (fuel : nat) (p : Proc),
    env (os p) = [] ->
    lockfile (__init__ mydir default_timeout default_delay) ∈ files (os p) ->
    fault (os p) !! lockfile (__init__ mydir default_timeout default_delay) = None ->
    (201 <= fuel)%nat ->
    exists (w' : World),
      Scenario.test_main mydir fuel p =
        (Raise LockTimeout,
         mkProc (objs p ++ [__init__ mydir default_timeout default_delay])%list w') /\
      files w' = files (os p) /\
      fds w' = fds (os p) /\
      (default_timeout <= now w' - now (os p))%Q /\
      (now w' - now (os p) < default_timeout + default_delay)%Q /\
      Forall (fun ev => ev <> EvSleep 1) (take (length (log w') - length (log (os p))) (log w')).
Proof.
  intros mydir fuel p He Hin Hf Hfuel.
  unfold Scenario.test_main, new. cbn beta iota.
  assert (Hunl : is_locked (__init__ mydir default_timeout default_delay) = false)
    by reflexivity.
  assert (Htmo : timeout (__init__ mydir default_timeout default_delay) = default_timeout)
    by reflexivity.
  assert (Hdl : delay (__init__ mydir default_timeout default_delay) = default_delay)
    by reflexivity.
  remember (__init__ mydir default_timeout default_delay) as self eqn:Eself.
  clear Eself.
  destruct (acquire_loop_gives_up 200 fuel (now (os p)) self (os p)) as (w' & Hloop).
  { exact Hin. }
  { exact Hf. }
  { rewrite He. constructor. }
  { rewrite Htmo. vm_compute. discriminate. }
  { rewrite Hdl. reflexivity. }
  { rewrite Htmo, Hdl. unfold span, default_timeout, default_delay.
    change (inject_Z (Z.of_nat 200)) with 200%Q. lra. }
  { lia. }
  destruct (acquire_loop_quiet fuel (now (os p)) self self (os p) w' _ He Hloop)
    as (Hfiles & Hfds & _ & _); [discriminate |].
  destruct (acquire_loop_window fuel (now (os p)) self self (os p) w' He) as [Hlo Hhi].
  { left. rewrite Htmo. unfold default_timeout. lra. }
  { exact Hloop. }
  destruct (acquire_loop_log fuel (now (os p)) self (os p)) as (evs & Hlog & Hevs & _).
  rewrite Hloop in Hlog. cbn [snd] in Hlog.
  assert (Henter :
            @call ref (length (objs p)) (@__enter__ ref (length (objs p)) fuel)
                  (mkProc (objs p ++ [self])%list (os p)) =
            (Raise LockTimeout, mkProc (objs p ++ [self])%list w')).
  { rewrite call_last, enter_eq, Hunl, acquire_eq, Hloop. reflexivity. }
  assert (Hfin : finalize (length (objs p)) (mkProc (objs p ++ [self])%list w') =
                 (Return tt, mkProc (objs p ++ [self])%list w')).
  { unfold finalize, __del__.
    rewrite call_last, release_when_unlocked by exact Hunl. reflexivity. }
  exists w'. unfold with_stmt. rewrite Henter, Hfin. cbn beta iota.
  split; [reflexivity |]. split; [exact Hfiles |]. split; [exact Hfds |].
  rewrite Htmo, Hdl in *. split; [exact Hlo |]. split; [exact Hhi |].
  rewrite Hlog, length_app, Nat.add_sub, take_app_length.
  eapply Forall_impl; [exact Hevs |].
  intros ev [-> | ->]; [discriminate |].
  rewrite Hdl. unfold default_delay. intros [=].
Qed.

Lemma test_main_contended_witness :
  exists (w' : World),
    Scenario.test_main "/tmp/work" 201 (start Scenario.held) =
      (Raise LockTimeout, mkProc [Scenario.work] w') /\
    files w' = files Scenario.held.
Proof.
  destruct (test_main_contended "/tmp/work" 201 (start Scenario.held))
    as (w' & Hrun & Hfiles & _).
  - reflexivity.
  - change (Scenario.work_lock ∈ ({[Scenario.work_lock]} : gset string)).
    apply elem_of_singleton_2. reflexivity.
  - reflexivity.
  - lia.
  - exists w'. split; [exact Hrun | exact Hfiles].
Defined.

Lemma acquire_only_polls_witness :
  exists evs,
    log (acquire 5 Scenario.work_brief Scenario.held).2 = (evs ++ log Scenario.held)%list /\
    length (List.filter is_open evs) = S (length (List.filter is_sleep evs)).
Proof.
  destruct (acquire_only_polls 5 Scenario.work_brief Scenario.held)
    as (evs & Hlog & _ & Hcount).
  exists evs. split; [exact Hlog |].
  apply Hcount. vm_compute. discriminate.
Defined.

Lemma release_footprint_witness :
  "/tmp/other" ∈ files (release Scenario.work_held Scenario.ours).2 <->
  "/tmp/other" ∈ files Scenario.ours.
Proof.
  destruct (release_footprint Scenario.work_held Scenario.ours) as (Hother & _).
  apply Hother. discriminate.
Defined.
